(** * immuto: composable reducers and cursors (src/index.ts)

    A shallow embedding of the reducer combinator, the cursor navigation
    functions, the collection and reference combinators, the container
    operations, and the setter synthesis of [ensureReducer], followed by the
    properties proved about them.

    Conventions of the embedding.
    - TypeScript's type parameters are Rocq type variables.  A type that the
      code tests against [undefined] carries an [Undefinable] instance.
    - An optional property [x?: T] is an [option T]; [None] is [undefined].
    - Action types are object types (they all carry a [type] string, see the
      comment on [Action] in the source), so an action that is present is
      truthy: [update ? a : b] tests presence.
    - States are plain data: primitives, plain objects and arrays whose
      properties are enumerable data properties.  A plain object is the
      finite map of its own properties; its prototype is not represented,
      since the code embedded here reads own properties only
      ([Object.keys], and [items[key]] behind [hasOwnProperty]).  Arrays
      are lists of slots, a slot being a hole ([None]) or an element.
    - A getter [(state: S) => C] is a function from [S] to [C]: at a state
      of its TypeScript type it returns a value of its result type.  Owner
      types that are interfaces are records.
    - Code that mutates objects ([assign], [delete], [splice], index
      assignment) is embedded twice: as functions on object contents, and in
      [Module Mut] as computations on a heap of mutable cells; the second
      embedding is proved to compute the first and to leave every cell that
      existed before the call untouched. *)

From Stdlib Require Import Ascii String ZArith Lia.
From stdpp Require Import base option list strings gmap pretty.

Local Open Scope string_scope.

(** ** JavaScript values the code inspects *)

(** [x === undefined] at a TypeScript type [T]. *)
Class Undefinable (T : Type) := is_undefined : T -> bool.

#[global] Instance option_undefinable {T} : Undefinable (option T) :=
  fun x => match x with None => true | Some _ => false end.
#[global] Instance Z_undefinable : Undefinable Z := fun _ => false.
#[global] Instance string_undefinable : Undefinable string := fun _ => false.

(** A thrown [Error] carries its message. *)
Inductive Result (T : Type) : Type :=
| Ok (value : T)
| Throw (message : string).
Arguments Ok {T} value.
Arguments Throw {T} message.

(** ** Actions and the reducer combinator *)

(** [interface Action<T, P>]: the tag [type] and the [payload]. *)
Record Action (P : Type) : Type := mkAction { type : string; payload : P }.
Arguments mkAction {P} type payload.
Arguments type {P} _.
Arguments payload {P} _.

(** [interface ActionDefinition<S, T, P>]; the members [payloadType] and
    [stateType] have no run-time value and are left out. *)
Record ActionDefinition (S P : Type) : Type :=
  mkDefinition { def_type : string; def_reduce : S -> P -> S }.
Arguments mkDefinition {S P} def_type def_reduce.
Arguments def_type {S P} _.
Arguments def_reduce {S P} _ _ _.

(** [action(type, reduce)]: the definition, and the action it creates when it
    is called with a payload. *)
Definition action {S P} (type : string) (reduce : S -> P -> S)
  : ActionDefinition S P := mkDefinition type reduce.

Definition create {S P} (def : ActionDefinition S P) (payload : P) : Action P :=
  mkAction (def_type def) payload.

(** [interface MinimalReducer<S, A>]: a reduce function with an [empty]
    state attached. *)
Record MinimalReducer (S A : Type) : Type :=
  mkReducer { r_reduce : S -> A -> S; r_empty : S }.
Arguments mkReducer {S A} r_reduce r_empty.
Arguments r_reduce {S A} _ _ _.
Arguments r_empty {S A} _.

(** A [Reducer<S, A>] is a [MinimalReducer] whose actions are tagged; its
    methods [action] and [store] are the functions [Reducer_action] and
    [Reducer_store] below; the members [actionType] and [cursorType] have
    no run-time value. *)
Abbreviation Reducer S P := (MinimalReducer S (Action P)).

Section ReducerCombinator.
Context {S P : Type} `{!Undefinable S}.

(** [isAction(obj, type)]; [obj] is an action object, hence truthy. *)
Definition isAction (obj : Action P) (ty : string) : bool :=
  String.eqb (type obj) ty.

(** [chain(headType, empty, head, rest)]. *)
Definition chain (headType : string) (empty : S)
           (head : S -> P -> S) (rest : S -> Action P -> S) : Reducer S P :=
  {| r_reduce := fun state action =>
       if isAction action headType
       then head state (payload action)
       else rest state action;
     r_empty := empty |}.

(** The method [action(def)] of the object returned by [chain]. *)
Definition Reducer_action (r : Reducer S P) (def : ActionDefinition S P)
  : Reducer S P :=
  chain (def_type def) (r_empty r) (def_reduce def) (r_reduce r).

(** [reducer(empty)] returns a starter object whose only member is
    [action(def)]. *)
Record Starter : Type := mkStarter { starter_empty : S }.

Definition reducer (empty : S) : Starter := mkStarter empty.

Definition passThrough (empty : S) : S -> Action P -> S :=
  fun s _ => if is_undefined s then empty else s.

Definition Starter_action (st : Starter) (def : ActionDefinition S P)
  : Reducer S P :=
  chain (def_type def) (starter_empty st) (def_reduce def)
        (passThrough (starter_empty st)).

(** [reducer(empty).action(d).action(d1)...action(dn)]. *)
Definition build (empty : S) (d : ActionDefinition S P)
           (ds : list (ActionDefinition S P)) : Reducer S P :=
  foldl Reducer_action (Starter_action (reducer empty) d) ds.
End ReducerCombinator.

(** ** Computations on mutable state *)

(** A computation reads and updates a state of type [St] and either returns
    a value or throws ([None]). *)
Definition Comp (St X : Type) : Type := St -> option (X * St).

#[global] Instance Comp_ret {St} : MRet (Comp St) :=
  fun X x st => Some (x, st).
#[global] Instance Comp_bind {St} : MBind (Comp St) :=
  fun X Y k m st =>
    match m st with
    | Some (x, st') => k x st'
    | None => None
    end.

(** ** The store and its cursors *)

(** [interface Store<S, A>].  The store is an external collaborator (Redux):
    its methods are arbitrary computations on its internal state [Sigma].
    [subscribe] is not called by the code embedded here. *)
Record Store (Sigma S A : Type) : Type :=
  mkStore { store_dispatch : A -> Comp Sigma A;
            store_getState : Comp Sigma S }.
Arguments mkStore {Sigma S A} store_dispatch store_getState.
Arguments store_dispatch {Sigma S A} _ _.
Arguments store_getState {Sigma S A} _.

(** The method [store()] of a reducer, [createStore(reduce)].  Redux's
    store, without its listeners, keeps the current state as its internal
    state: [dispatch] installs [reduce(state, action)] and returns the
    action, [getState] reads the state. *)
Definition Reducer_store {S A} (r : MinimalReducer S A) : Store S S A :=
  {| store_dispatch := fun action s => Some (action, r_reduce r s action);
     store_getState := fun s => Some (s, s) |}.

Section Cursors.
Context {Sigma RS RA : Type}.

(** [interface Cursor<S, A>] is a function object: calling it dispatches,
    and its property [state] is the state captured at creation.  The
    library creates cursors in two places, and a cursor is represented by
    the variables its closure captures:
    - [SnapshotCursor store state]: the closure [dispatch] of [snapshot];
    - [ItemsCursor fetch update outer key]: the closure [dispatch] of
      [items(fetch, update)(outer, key)].
    The members [valueOf] (which returns the state) and [exists] are not
    represented. *)
Inductive Cursor : Type -> Type -> Type :=
| SnapshotCursor (store : Store Sigma RS RA) (state : RS) : Cursor RS RA
| ItemsCursor {OS OA K IS IA} (fetch : OS -> K -> IS) (update : K -> IA -> OA)
    (outer : Cursor OS OA) (key : K) : Cursor IS IA.

(** The property [state]: [store.getState()] as read by [snapshot], and
    [fetched = fetch(outer.state, key)] in [items], which the code
    evaluates when it creates the cursor; [fetch] being a function, the
    value is the same when it is computed from the captured variables. *)
Fixpoint state {S A} (c : Cursor S A) : S :=
  match c with
  | SnapshotCursor _ s => s
  | ItemsCursor fetch _ outer key => fetch (state outer) key
  end.

(** [snapshot(store)]. *)
Definition snapshot (store : Store Sigma RS RA) : Comp Sigma (Cursor RS RA) :=
  s ← store_getState store; mret (SnapshotCursor store s).

(** [items(fetch, update)]. *)
Definition items {OS OA K IS IA} (fetch : OS -> K -> IS) (update : K -> IA -> OA)
  : Cursor OS OA -> K -> Cursor IS IA :=
  fun outer key => ItemsCursor fetch update outer key.

(** Calling a cursor: the bodies of the two [dispatch] closures. *)
Fixpoint dispatch {S A} (c : Cursor S A) : A -> Comp Sigma (Cursor S A) :=
  match c in Cursor S A return A -> Comp Sigma (Cursor S A) with
  | SnapshotCursor store _ => fun action =>
      _ ← store_dispatch store action; snapshot store
  | ItemsCursor fetch update outer key => fun innerAction =>
      outer' ← dispatch outer (update key innerAction);
      mret (items fetch update outer' key)
  end.

(** [item(fetch, update)]: [items] at the key type [void]. *)
Definition item {OS OA IS IA} (fetch : OS -> IS) (update : IA -> OA)
  : Cursor OS OA -> Cursor IS IA :=
  let impl := items (fun os (_ : unit) => fetch os) (fun _ action => update action) in
  fun outer => impl outer tt.

(** What a cursor's closure has captured, read back from it: the store it
    descends from, the composite of the [fetch] functions on the way to its
    state, the composite of the [update] functions that address an action
    to it, and the same cursor over another state of the store. *)
Fixpoint root {S A} (c : Cursor S A) : Store Sigma RS RA :=
  match c with
  | SnapshotCursor store _ => store
  | ItemsCursor _ _ outer _ => root outer
  end.

Fixpoint view {S A} (c : Cursor S A) : RS -> S :=
  match c in Cursor S A return RS -> S with
  | SnapshotCursor _ _ => fun rs => rs
  | ItemsCursor fetch _ outer key => fun rs => fetch (view outer rs) key
  end.

Fixpoint address {S A} (c : Cursor S A) : A -> RA :=
  match c in Cursor S A return A -> RA with
  | SnapshotCursor _ _ => fun a => a
  | ItemsCursor _ update outer key => fun a => address outer (update key a)
  end.

Fixpoint rederive {S A} (c : Cursor S A) (rs : RS) : Cursor S A :=
  match c with
  | SnapshotCursor store _ => SnapshotCursor store rs
  | ItemsCursor fetch update outer key =>
      ItemsCursor fetch update (rederive outer rs) key
  end.
End Cursors.

(** ** Plain objects *)

(** A plain object with property values in [V]. *)
Abbreviation obj V := (gmap string V).

Section Objects.
Context {V : Type}.

(** [target[key] = value] on a plain object.  The assignment creates or
    overwrites an own property, with one exception: for the name
    [__proto__] on a target that does not own a property of that name, it
    reaches the accessor that objects inherit from [Object.prototype],
    which creates no property (it replaces the prototype of the target when
    the value is an object or [null], and does nothing otherwise).  The
    target is an object that inherits that accessor, as every object does
    unless its prototype was replaced by [null] or by an object that owns a
    property [__proto__]. *)
Definition set_property (target : obj V) (key : string) (value : V) : obj V :=
  match target !! key with
  | Some _ => <[key := value]> target
  | None =>
      if String.eqb key "__proto__" then target else <[key := value]> target
  end.

(** One round of the outer loop of [assign]: for every key of
    [Object.keys(source)], [target[key] = source[key]]. *)
Definition assign_from (target source : obj V) : obj V :=
  map_fold (fun key value target => set_property target key value) target source.

(** [assign(target, ...sources)]. *)
Definition assign (target : obj V) (sources : list (obj V)) : obj V :=
  foldl assign_from target sources.

(** [amend(o1, o2) = assign({}, o1, o2)]. *)
Definition amend (o1 o2 : obj V) : obj V := assign ∅ [o1; o2].
End Objects.

(** ** Collection operations *)

(** [interface CollectionOperations<C, K, I>]. *)
Record CollectionOperations (C K I : Type) : Type :=
  mkOperations { op_get : C -> K -> I -> I;
                 op_set : C -> K -> I -> C;
                 op_remove : C -> K -> I -> C }.
Arguments mkOperations {C K I} op_get op_set op_remove.
Arguments op_get {C K I} _ _ _ _.
Arguments op_set {C K I} _ _ _ _.
Arguments op_remove {C K I} _ _ _ _.

(** Immutable.js's persistent [Map<K, I>] (an external library) is a finite
    map: [has] is definedness of the lookup, [set] inserts, [remove]
    deletes. *)
Definition immutableMapOperations {K I} `{Countable K}
  : CollectionOperations (gmap K I) K I :=
  {| op_get := fun items key emptyItem =>
       match items !! key with Some item => item | None => emptyItem end;
     op_set := fun items key item => <[key := item]> items;
     op_remove := fun items key emptyItem => delete key items |}.

(** A key used in [items[key]] on a plain object is converted to a property
    name: a string is its own name, and a number [n] has the name
    [String(n)].  The numbers of the embedding are the safe integers, the
    integers below 2^53 in absolute value: a double holds each of them
    exactly, and [String(n)] is its decimal notation. *)
Class PropertyKey (K : Type) := property_key : K -> string.
#[global] Instance string_property_key : PropertyKey string := fun s => s.

Definition safe_integer : Type := dsig (fun n : Z => (Z.abs n < 2 ^ 53)%Z).

#[global] Instance number_property_key : PropertyKey safe_integer :=
  fun n => pretty (`n).

(** [builtInOperations]; the literal [{ [key]: item }] owns the property
    [key] whatever its name (a computed property name defines an own
    property). *)
Definition builtInOperations {K I} `{PropertyKey K}
  : CollectionOperations (obj I) K I :=
  {| op_get := fun items key emptyItem =>
       match items !! property_key key with
       | Some item => item
       | None => emptyItem
       end;
     op_set := fun items key item =>
       amend items {[ property_key key := item ]};
     op_remove := fun items key _ =>
       let items := assign ∅ [items] in
       delete (property_key key) items |}.

Definition stringMapOperations {I} : CollectionOperations (obj I) string I :=
  builtInOperations.

Definition numberMapOperations {I}
  : CollectionOperations (obj I) safe_integer I :=
  builtInOperations.

(** An array with elements in [I]: a slot is a hole ([None]) or holds an
    element.  Keys are array indices. *)
Abbreviation array I := (list (option I)).

Section Arrays.
Context {I : Type}.

(** [items.slice(0)]: a copy with the same slots. *)
Definition array_slice0 (items : array I) : array I := items.

(** [items.splice(start, deleteCount, item)] for a non-negative [start]:
    the start is clamped to the length and the count to what is left. *)
Definition array_splice (items : array I) (start deleteCount : nat) (item : I)
  : array I :=
  let start := start `min` length items in
  let deleteCount := deleteCount `min` (length items - start) in
  take start items ++ Some item :: drop (start + deleteCount) items.

(** [items[key] = item]: overwrites a slot, or grows the array, leaving
    holes below [key]. *)
Definition array_set_index (items : array I) (key : nat) (item : I) : array I :=
  if decide (key < length items)
  then <[key := Some item]> items
  else items ++ replicate (key - length items) None ++ [Some item].

(** [arrayOperations()]. *)
Definition arrayOperations `{!Undefinable I}
  : CollectionOperations (array I) nat I :=
  {| op_get := fun items key emptyItem =>
       match items !! key with
       | Some (Some r) => if is_undefined r then emptyItem else r
       | _ => emptyItem
       end;
     op_set := fun items key item =>
       let items := array_slice0 items in
       array_splice items key 1 item;
     op_remove := fun items key emptyItem =>
       let items := array_slice0 items in
       array_set_index items key emptyItem |}.
End Arrays.

(** ** Regular expressions of [ensureReducer] *)

(** The two patterns are sequences of quantified single-character terms,
    three of them inside capture groups.  Source text is a list of code
    units below 256. *)
Inductive charset : Type :=
| Lit (c : ascii)   (* a literal character, compared ignoring case *)
| Space             (* \s *)
| Letter.           (* [a-z] under the flag i *)

Inductive quantifier : Type :=
| Once              (* x  *)
| Optional          (* x? *)
| ZeroOrMore        (* x* *)
| OneOrMore.        (* x+ *)

Record term : Type :=
  mkTerm { term_set : charset; term_quant : quantifier; term_captured : bool }.

Abbreviation regex := (list term).

Definition is_upper (c : ascii) : bool :=
  let n := N_of_ascii c in ((65 <=? n) && (n <=? 90))%N.

Definition is_lower (c : ascii) : bool :=
  let n := N_of_ascii c in ((97 <=? n) && (n <=? 122))%N.

(** Canonicalisation under the flag [i]: ASCII lower case to upper case. *)
Definition canonicalize (c : ascii) : ascii :=
  if is_lower c then ascii_of_N (N_of_ascii c - 32) else c.

Definition is_letter (c : ascii) : bool := is_upper c || is_lower c.

(** White space among the code units below 256: tab, line feed, vertical
    tab, form feed, carriage return, space and no-break space. *)
Definition is_space (c : ascii) : bool :=
  let n := N_of_ascii c in
  (((9 <=? n) && (n <=? 13)) || (n =? 32) || (n =? 160))%N.

Definition in_set (cs : charset) (c : ascii) : bool :=
  match cs with
  | Lit l => Ascii.eqb (canonicalize l) (canonicalize c)
  | Space => is_space c
  | Letter => is_letter c
  end.

Section Matcher.
Context {R : Type}.

(** A greedy run of characters of [cs]: the longest run is tried first, and
    each failure of the continuation [k] gives one character back.  [acc]
    is the text consumed so far. *)
Fixpoint many (cs : charset) (k : list ascii -> list ascii -> option R)
         (acc s : list ascii) : option R :=
  match s with
  | c :: s' =>
      if in_set cs c
      then match many cs k (acc ++ [c]) s' with
           | Some r => Some r
           | None => k acc s
           end
      else k acc s
  | [] => k acc []
  end.
End Matcher.

(** Matching [r] at the start of [s]: the capture groups of the first match
    in backtracking order. *)
Fixpoint matchHere (r : regex) (s : list ascii) : option (list string) :=
  match r with
  | [] => Some []
  | t :: r' =>
      let k := fun consumed rest =>
        match matchHere r' rest with
        | Some groups =>
            Some (if term_captured t
                  then string_of_list_ascii consumed :: groups
                  else groups)
        | None => None
        end in
      match term_quant t with
      | Once =>
          match s with
          | c :: s' => if in_set (term_set t) c then k [c] s' else None
          | [] => None
          end
      | Optional =>
          match s with
          | c :: s' =>
              if in_set (term_set t) c
              then match k [c] s' with
                   | Some m => Some m
                   | None => k [] s
                   end
              else k [] s
          | [] => k [] []
          end
      | ZeroOrMore => many (term_set t) k [] s
      | OneOrMore =>
          match s with
          | c :: s' =>
              if in_set (term_set t) c then many (term_set t) k [c] s' else None
          | [] => None
          end
      end
  end.

(** [re.exec(src)] for a pattern without the flags [g] and [y]: the match
    at the leftmost position that has one.  The result lists [matched[1]],
    [matched[2]], ...; [matched[0]] is not used by the code. *)
Fixpoint exec_from (r : regex) (s : list ascii) : option (list string) :=
  match matchHere r s with
  | Some groups => Some groups
  | None =>
      match s with
      | [] => None
      | _ :: s' => exec_from r s'
      end
  end.

Definition exec (r : regex) (src : string) : option (list string) :=
  exec_from r (list_ascii_of_string src).

Definition lit (s : string) : regex :=
  (fun c => mkTerm (Lit c) Once false) <$> list_ascii_of_string s.

Definition spaces : term := mkTerm Space ZeroOrMore false.
Definition group_letters : term := mkTerm Letter OneOrMore true.

(** [/function\s*[a-z]*\s*\(\s*([a-z]+)\s*\)\s*\{\s*return\s+([a-z]+)\.([a-z]+)/i] *)
Definition matchFunction : regex :=
  (lit "function" ++ [spaces; mkTerm Letter ZeroOrMore false; spaces]
   ++ lit "(" ++ [spaces; group_letters; spaces]
   ++ lit ")" ++ [spaces]
   ++ lit "{" ++ [spaces]
   ++ lit "return" ++ [mkTerm Space OneOrMore false; group_letters]
   ++ lit "." ++ [group_letters])%list.

(** [/\(?\s*([a-z]+)\s*\)?\s*\=\>\s*([a-z]+)\.([a-z]+)/i] *)
Definition matchLambda : regex :=
  ([mkTerm (Lit "(") Optional false; spaces; group_letters; spaces;
    mkTerm (Lit ")") Optional false; spaces]
   ++ lit "=>" ++ [spaces; group_letters]
   ++ lit "." ++ [group_letters])%list.

(** The names the two patterns can read: one or more ASCII letters. *)
Definition letters (name : string) : bool :=
  match list_ascii_of_string name with
  | [] => false
  | cs => forallb is_letter cs
  end.

(** White space: a text, possibly empty, of characters of [\s]. *)
Definition blank (w : string) : bool :=
  forallb is_space (list_ascii_of_string w).

(** What may follow the returned expression in a function body: white
    space, semicolons and the closing brace. *)
Definition closing (w : string) : bool :=
  forallb (fun c => is_space c || Ascii.eqb c ";" || Ascii.eqb c "}")
          (list_ascii_of_string w).

(** The source text of a getter that returns the property [f] of its
    parameter [p]: an arrow function [p => p.f] or [(p) => p.f], and a
    function expression [function (p) { return p.f; }], named or not, each
    with the white space [w0], [w1], ... where the language allows it. *)
Definition arrowGetter (paren : bool) (w1 w2 w3 w4 p f : string) : string :=
  let body := w3 ++ "=>" ++ w4 ++ p ++ "." ++ f in
  if paren then "(" ++ w1 ++ p ++ w2 ++ ")" ++ body else p ++ body.

Definition functionGetter (name w0 w1 w2 w3 w4 w5 w6 p f rest : string)
  : string :=
  "function" ++ w0 ++ name ++ w1 ++ "(" ++ w2 ++ p ++ w3 ++ ")" ++ w4
  ++ "{" ++ w5 ++ "return" ++ w6 ++ p ++ "." ++ f ++ rest.

Inductive getterOf (p f : string) : string -> Prop :=
| getter_arrow (paren : bool) (w1 w2 w3 w4 : string) :
    blank w1 = true -> blank w2 = true -> blank w3 = true -> blank w4 = true ->
    getterOf p f (arrowGetter paren w1 w2 w3 w4 p f)
| getter_function (name w0 w1 w2 w3 w4 w5 w6 rest : string) :
    forallb is_letter (list_ascii_of_string name) = true ->
    blank w0 = true -> blank w1 = true -> blank w2 = true ->
    blank w3 = true -> blank w4 = true -> blank w5 = true ->
    blank w6 = true -> w6 <> "" ->
    closing rest = true ->
    getterOf p f (functionGetter name w0 w1 w2 w3 w4 w5 w6 p f rest).

(** A greedy run stops in front of [s]. *)
Definition stops (cs : charset) (s : list ascii) : bool :=
  match s with
  | [] => true
  | c :: _ => negb (in_set cs c)
  end.

(** The groups of a match, given the text a term consumed and the groups of
    the rest. *)
Definition captured_by (t : term) (consumed : list ascii) (groups : list string)
  : list string :=
  if term_captured t then string_of_list_ascii consumed :: groups else groups.

(** A term that must consume a character. *)
Definition mandatory (t : term) : bool :=
  match term_quant t with
  | Once | OneOrMore => true
  | Optional | ZeroOrMore => false
  end.

(** ** Synthesis of a setter from a getter *)

(** A function object with the text [toString()] gives for it. *)
Record Getter (S P : Type) : Type :=
  mkGetter { call : S -> P; toString : string }.
Arguments mkGetter {S P} call toString.
Arguments call {S P} _ _.
Arguments toString {S P} _.

(** The function [(state, value) => amend(state, { [name]: value })] at a
    function type [F]. *)
Class FieldSetter (F : Type) := field_setter : string -> F.

#[global] Instance obj_field_setter {V} : FieldSetter (obj V -> V -> obj V) :=
  fun name state value => amend state {[ name := value ]}.

(** [ensureReducer(context, fetch, reduce)]; [src] is [fetch.toString()]. *)
Definition ensureReducer {F} `{!FieldSetter F}
           (context : string) (src : string) (reduce : option F) : Result F :=
  match reduce with
  | Some reduce => Ok reduce
  | None =>
      let matched :=
        match exec matchFunction src with
        | Some m => Some m
        | None => exec matchLambda src
        end in
      match matched with
      | None =>
          Throw ("Cannot generate reducer for " ++ context ++ " "
                 ++ "- too complex to parse, needs explicit reduce")
      | Some m =>
          let m1 := nth 0 m "" in
          let m2 := nth 1 m "" in
          let m3 := nth 2 m "" in
          if negb (String.eqb m1 m2)
          then Throw ("Cannot generate reducer for " ++ context ++ " "
                      ++ "- inconsistent parameter usage: " ++ m1 ++ ", " ++ m2)
          else Ok (field_setter m3)
      end
  end.

(** ** The collection combinator *)

(** [interface Update<K, U>]; [remove?: boolean] is truthy when it is
    [true]. *)
Record Update (K U : Type) : Type :=
  mkUpdate { u_key : K; u_update : option U; u_remove : option bool }.
Arguments mkUpdate {K U} u_key u_update u_remove.
Arguments u_key {K U} _.
Arguments u_update {K U} _.
Arguments u_remove {K U} _.

Definition truthy (flag : option bool) : bool :=
  match flag with
  | Some true => true
  | _ => false
  end.

(** The data members of [CollectionDefinition<T, S, C, K, I, A>]; calling
    the definition is [collectionCursors] below. *)
Record CollectionDefinition (S K A : Type) : Type :=
  mkCollection { c_type : string;
                 c_reduce : S -> Update K A -> S;
                 c_update : K -> A -> Action (Update K A);
                 c_add : K -> Action (Update K A);
                 c_remove : K -> Action (Update K A) }.
Arguments mkCollection {S K A} c_type c_reduce c_update c_add c_remove.
Arguments c_type {S K A} _.
Arguments c_reduce {S K A} _ _ _.
Arguments c_update {S K A} _ _ _.
Arguments c_add {S K A} _ _.
Arguments c_remove {S K A} _ _.

Section Collection.
Context {S C K I A : Type} `{!FieldSetter (S -> C -> S)}.
Variable type : string.
Variable reducer : MinimalReducer I A.
Variable operations : CollectionOperations C K I.
Variable get : Getter S C.

Definition add (key : K) : Action (Update K A) :=
  mkAction type (mkUpdate key None None).

Definition remove (key : K) : Action (Update K A) :=
  mkAction type (mkUpdate key None (Some true)).

Definition update (key : K) (update : A) : Action (Update K A) :=
  mkAction type (mkUpdate key (Some update) None).

(** The function [reduce] of [collection], given the setter [ensuredSet]
    that [ensureReducer] returned. *)
Definition reduce (ensuredSet : S -> C -> S) (state : S) (p : Update K A) : S :=
  let key := u_key p in
  let collection := call get state in
  let value := op_get operations collection key (r_empty reducer) in
  ensuredSet state
    (if truthy (u_remove p)
     then op_remove operations collection key (r_empty reducer)
     else op_set operations collection key
            match u_update p with
            | Some update => r_reduce reducer value update
            | None => value
            end).

(** [collection(type, reducer, operations, get, set)]: construction throws
    when [ensureReducer] does. *)
Definition collection (set : option (S -> C -> S))
  : Result (CollectionDefinition S K A) :=
  match ensureReducer ("collection(" ++ type ++ ")") (toString get) set with
  | Throw message => Throw message
  | Ok ensuredSet => Ok (mkCollection type (reduce ensuredSet) update add remove)
  end.

Section CollectionCursors.
Context {Sigma RS RA : Type}.

Definition plainCursors
  : Cursor (Sigma:=Sigma) (RS:=RS) (RA:=RA) S (Action (Update K A)) -> K ->
    Cursor (Sigma:=Sigma) (RS:=RS) (RA:=RA) I A :=
  items (fun (state : S) (key : K) =>
           op_get operations (call get state) key (r_empty reducer))
        update.

(** [interface CollectionCursor<I, A>]: a cursor with a method [remove]. *)
Record CollectionCursor : Type :=
  mkCollectionCursor {
    cc_cursor : Cursor (Sigma:=Sigma) (RS:=RS) (RA:=RA) I A;
    cc_remove : Comp Sigma (Cursor (Sigma:=Sigma) (RS:=RS) (RA:=RA)
                              S (Action (Update K A))) }.

Definition collectionCursors
           (outer : Cursor (Sigma:=Sigma) (RS:=RS) (RA:=RA) S (Action (Update K A)))
           (key : K) : CollectionCursor :=
  let plainCursor := plainCursors outer key in
  {| cc_cursor := plainCursor;
     cc_remove := dispatch outer (remove key) |}.
End CollectionCursors.
End Collection.

(** ** The reference combinator *)

Record ReferenceDefinition (S A : Type) : Type :=
  mkReference { ref_type : string;
                ref_reduce : S -> A -> S;
                ref_update : A -> Action A }.
Arguments mkReference {S A} ref_type ref_reduce ref_update.
Arguments ref_type {S A} _.
Arguments ref_reduce {S A} _ _ _.
Arguments ref_update {S A} _ _.

Section Reference.
Context {S I A : Type} `{!FieldSetter (S -> I -> S)}.
Variable type : string.
Variable reducer : MinimalReducer I A.
Variable get : Getter S I.

Definition reference_update (payload : A) : Action A := mkAction type payload.

Definition reference_reduce (ensuredSet : S -> I -> S)
           (outerState : S) (innerAction : A) : S :=
  ensuredSet outerState (r_reduce reducer (call get outerState) innerAction).

(** [reference(type, reducer, get, set)]. *)
Definition reference (set : option (S -> I -> S)) : Result (ReferenceDefinition S A) :=
  match ensureReducer ("reference(" ++ type ++ ")") (toString get) set with
  | Throw message => Throw message
  | Ok ensuredSet =>
      Ok (mkReference type (reference_reduce ensuredSet) reference_update)
  end.

Definition referenceCursors {Sigma RS RA}
  : Cursor (Sigma:=Sigma) (RS:=RS) (RA:=RA) S (Action A) ->
    Cursor (Sigma:=Sigma) (RS:=RS) (RA:=RA) I A :=
  item (fun state : S => call get state) reference_update.
End Reference.

(** ** Objects as mutable cells *)

(** The functions of the source that create or update objects, as
    computations on a heap.  A value is a primitive or a reference to a
    cell; a cell is a plain object (its own properties) or an array.  A
    computation throws ([None]) on a [TypeError] (a property of
    [undefined]) and on the uses that the embedding leaves out: a property
    name on an array, an index on a plain object. *)
Module Mut.

Abbreviation loc := nat.

Inductive val : Type :=
| VUndefined
| VNull
| VBool (b : bool)
| VNum (n : Z)
| VStr (s : string)
| VRef (l : loc).

Inductive cell : Type :=
| CObj (props : obj val)
| CArr (slots : array val).

Abbreviation heap := (list cell).

Abbreviation M := (Comp heap).

#[global] Instance val_undefinable : Undefinable val :=
  fun v => match v with VUndefined => true | _ => false end.

Definition throw {X} : M X := fun _ => None.

(** An object or array literal: a new cell. *)
Definition alloc (c : cell) : M val :=
  fun h => Some (VRef (length h), (h ++ [c])%list).

Definition read (v : val) : M cell :=
  fun h =>
    match v with
    | VRef l => match h !! l with Some c => Some (c, h) | None => None end
    | _ => None
    end.

Definition write (v : val) (c : cell) : M unit :=
  fun h =>
    match v with
    | VRef l => if decide (l < length h) then Some (tt, <[l := c]> h) else None
    | _ => None
    end.

(** [Object.keys(o)]. *)
Definition keys (o : val) : M (list string) :=
  c ← read o;
  match c with
  | CObj props => mret (map_to_list props).*1
  | CArr _ => throw
  end.

(** [o[key]] on a plain object, for a property that the object owns or
    that neither it nor its prototypes have; the code embedded here reads
    own properties only. *)
Definition get_prop (o : val) (key : string) : M val :=
  c ← read o;
  match c with
  | CObj props => mret (default VUndefined (props !! key))
  | CArr _ => throw
  end.

(** [Object.prototype.hasOwnProperty.call(o, key)]. *)
Definition hasOwnProperty (o : val) (key : string) : M bool :=
  c ← read o;
  match c with
  | CObj props => mret (bool_decide (is_Some (props !! key)))
  | CArr _ => throw
  end.

(** [o[key] = value] on a plain object: [set_property] on its cell. *)
Definition set_prop (o : val) (key : string) (value : val) : M unit :=
  c ← read o;
  match c with
  | CObj props => write o (CObj (set_property props key value))
  | CArr _ => throw
  end.

(** [delete o[key]]. *)
Definition delete_prop (o : val) (key : string) : M unit :=
  c ← read o;
  match c with
  | CObj props => write o (CObj (delete key props))
  | CArr _ => throw
  end.

(** The inner loop of [assign]. *)
Fixpoint assign_keys (target source : val) (ks : list string) : M unit :=
  match ks with
  | [] => mret tt
  | key :: ks =>
      value ← get_prop source key;
      _ ← set_prop target key value;
      assign_keys target source ks
  end.

(** [assign(target, ...sources)]. *)
Fixpoint assign (target : val) (sources : list val) : M val :=
  match sources with
  | [] => mret target
  | source :: sources =>
      ks ← keys source;
      _ ← assign_keys target source ks;
      assign target sources
  end.

(** [amend(o1, o2)]. *)
Definition amend (o1 o2 : val) : M val :=
  target ← alloc (CObj ∅);
  assign target [o1; o2].

(** The setter that [ensureReducer] synthesises. *)
#[global] Instance ref_field_setter : FieldSetter (val -> val -> M val) :=
  fun name state value =>
    o2 ← alloc (CObj {[ name := value ]});
    amend state o2.

(** [builtInOperations]. *)
Definition builtIn_get (items : val) (key : string) (emptyItem : val) : M val :=
  has ← hasOwnProperty items key;
  if has : bool then get_prop items key else mret emptyItem.

Definition builtIn_set (items : val) (key : string) (item : val) : M val :=
  o2 ← alloc (CObj {[ key := item ]});
  amend items o2.

Definition builtIn_remove (items : val) (key : string) : M val :=
  target ← alloc (CObj ∅);
  items ← assign target [items];
  _ ← delete_prop items key;
  mret items.

(** [items.slice(0)]. *)
Definition slice0 (items : val) : M val :=
  c ← read items;
  match c with
  | CArr slots => alloc (CArr (array_slice0 slots))
  | CObj _ => throw
  end.

(** [items.splice(start, deleteCount, item)]; the removed elements it
    returns are not used. *)
Definition splice (items : val) (start deleteCount : nat) (item : val) : M unit :=
  c ← read items;
  match c with
  | CArr slots => write items (CArr (array_splice slots start deleteCount item))
  | CObj _ => throw
  end.

(** [items[key]] on an array. *)
Definition get_index (items : val) (key : nat) : M val :=
  c ← read items;
  match c with
  | CArr slots =>
      mret match slots !! key with Some (Some r) => r | _ => VUndefined end
  | CObj _ => throw
  end.

(** [items[key] = item] on an array. *)
Definition set_index (items : val) (key : nat) (item : val) : M unit :=
  c ← read items;
  match c with
  | CArr slots => write items (CArr (array_set_index slots key item))
  | CObj _ => throw
  end.

(** [arrayOperations()]. *)
Definition array_get (items : val) (key : nat) (emptyItem : val) : M val :=
  r ← get_index items key;
  mret (if is_undefined r then emptyItem else r).

Definition array_set (items : val) (key : nat) (item : val) : M val :=
  items ← slice0 items;
  _ ← splice items key 1 item;
  mret items.

Definition array_remove (items : val) (key : nat) (emptyItem : val) : M val :=
  items ← slice0 items;
  _ ← set_index items key emptyItem;
  mret items.

End Mut.

(** ** Primitives and properties *)

(** The value [undefined] at a TypeScript type [T]. *)
Class WithUndefined (T : Type) := undefined : T.
#[global] Instance option_with_undefined {T} : WithUndefined (option T) := None.
#[global] Instance val_with_undefined : WithUndefined Mut.val := Mut.VUndefined.

Definition REPLACE : string := "REPLACE".

(** [primitive<V>()]. *)
Definition primitive {V} `{!Undefinable V} `{!WithUndefined V} : Reducer V V :=
  Starter_action (reducer undefined) (action REPLACE (fun (s v : V) => v)).

(** [replace(value)]. *)
Definition replace {T} (value : T) : Action T := mkAction REPLACE value.

(** [property(type, fetch, reduce)]. *)
Definition property {S V} `{!Undefinable V} `{!WithUndefined V}
           `{!FieldSetter (S -> V -> S)}
           (type : string) (fetch : Getter S V) (reduce : option (S -> V -> S))
  : Result (ReferenceDefinition S (Action V)) :=
  reference type primitive fetch reduce.

(** ** Notions used to state properties *)

(** The case that handles a tag in a chain whose cases were registered in
    the order of the list: the one registered last among those with the
    tag. *)
Definition handler {S P} (ds : list (ActionDefinition S P)) (ty : string)
  : option (ActionDefinition S P) :=
  List.find (fun d => String.eqb (def_type d) ty) (rev ds).

(** The properties of [source] that [assign] copies into [target]: all of
    them, except an own [__proto__] when the target owns none. *)
Definition copied {V} (target source : obj V) : obj V :=
  match target !! "__proto__" with
  | Some _ => source
  | None => delete "__proto__" source
  end.

(** The source text of an arrow function that returns the property [f] of
    [q], with the parameter [p]. *)
Definition arrowAccess (p q f : string) : string :=
  p ++ " => " ++ q ++ "." ++ f.

(** A collection or reference definition as the [ActionDefinition] it
    extends. *)
Definition collectionCase {S K A} (def : CollectionDefinition S K A)
  : ActionDefinition S (Update K A) :=
  mkDefinition (c_type def) (c_reduce def).

Definition referenceCase {S A} (def : ReferenceDefinition S A)
  : ActionDefinition S A :=
  mkDefinition (ref_type def) (ref_reduce def).

(** ** Instances used as test inputs *)

(** A counter with the cases INCR, SET, and a second INCR registered last. *)
Definition counterCases : list (ActionDefinition (option Z) Z) :=
  [ action "SET" (fun _ v => Some v);
    action "INCR" (fun s _ => Some (default 0%Z s + 10)%Z) ].

Definition counter : Reducer (option Z) Z :=
  build (Some 0%Z) (action "INCR" (fun s _ => Some (default 0%Z s + 1)%Z))
        counterCases.

(** A shop: shelves keyed by name, each shelf a price with the one action
    SET_PRICE.  The owners are interfaces with one property: a [Shop] has
    its [shelves] in a plain object, a [Stack] has its [books] in an array,
    a [Book] has a [price]. *)
Definition priceReducer : Reducer Z Z :=
  build 0%Z (action "SET_PRICE" (fun _ price => price)) [].

Record Shop : Type := mkShop { shelves : obj Z }.
Record Stack : Type := mkStack { books : array Z }.
Record Book : Type := mkBook { price : Z }.

#[global] Instance obj_undefinable {V} : Undefinable (obj V) := fun _ => false.
#[global] Instance Shop_undefinable : Undefinable Shop := fun _ => false.
#[global] Instance Stack_undefinable : Undefinable Stack := fun _ => false.
#[global] Instance Book_undefinable : Undefinable Book := fun _ => false.

(** [(state, value) => amend(state, { [name]: value })] at an interface
    with one property: the property is replaced when [name] is its name;
    a property of another name is not part of the interface. *)
#[global] Instance Shop_field_setter : FieldSetter (Shop -> obj Z -> Shop) :=
  fun name state value =>
    if String.eqb name "shelves" then mkShop value else state.
#[global] Instance Stack_field_setter : FieldSetter (Stack -> array Z -> Stack) :=
  fun name state value =>
    if String.eqb name "books" then mkStack value else state.
#[global] Instance Book_field_setter : FieldSetter (Book -> Z -> Book) :=
  fun name state value =>
    if String.eqb name "price" then mkBook value else state.

(** The getters [s => s.shelves], [s => s.books] and [s => s.price], and
    the setters that replace the property, [(s, shelves) => ({ shelves })]
    and the like. *)
Definition shelvesGetter : Getter Shop (obj Z) :=
  mkGetter shelves "s => s.shelves".

Definition setShelves (s : Shop) (c : obj Z) : Shop := mkShop c.

Definition booksGetter : Getter Stack (array Z) :=
  mkGetter books "s => s.books".

Definition setBooks (s : Stack) (c : array Z) : Stack := mkStack c.

Definition priceGetter : Getter Book Z := mkGetter price "s => s.price".

Definition setPrice (s : Book) (p : Z) : Book := mkBook p.

(** The shop's shelves as a case of the owner's reducer, and a session on
    the owner's store: add the shelf [a], set its price through the shelf's
    cursor, remove it; the session returns the three states read at [a]. *)
Definition shelvesDef : CollectionDefinition Shop string (Action Z) :=
  mkCollection "SHELVES"
    (reduce priceReducer stringMapOperations shelvesGetter setShelves)
    (update "SHELVES") (add "SHELVES") (remove "SHELVES").

Definition shopOwner : Reducer Shop (Update string (Action Z)) :=
  build (mkShop ∅) (collectionCase shelvesDef) [].

Definition shopSession : Comp Shop (Z * Z * Z) :=
  let shelfAt := collectionCursors "SHELVES" priceReducer stringMapOperations
                                   shelvesGetter in
  c0 ← snapshot (Reducer_store shopOwner);
  c1 ← dispatch c0 (c_add shelvesDef "a");
  let shelf := cc_cursor (shelfAt c1 "a") in
  shelf' ← dispatch shelf (mkAction "SET_PRICE" 399%Z);
  c2 ← cc_remove (shelfAt c1 "a");
  mret (state shelf, state shelf', state (cc_cursor (shelfAt c2 "a"))).

(** A stack of books kept in an array. *)
Definition booksDef : CollectionDefinition Stack nat (Action Z) :=
  mkCollection "BOOKS"
    (reduce priceReducer arrayOperations booksGetter setBooks)
    (update "BOOKS") (add "BOOKS") (remove "BOOKS").

(** A book with its price behind a reference. *)
Definition priceDef : ReferenceDefinition Book (Action Z) :=
  mkReference "PRICE" (reference_reduce priceReducer priceGetter setPrice)
              (reference_update "PRICE").

Definition priceOwner : Reducer Book (Action Z) :=
  build (mkBook 0%Z) (referenceCase priceDef) [].

(** An owner kept as a plain object, whose property [shelves] may be
    missing: the getter [s => s.shelves] then returns [undefined], and the
    operations read a missing collection as empty. *)
Definition optionalShelves : Getter (obj (option (obj Z))) (option (obj Z)) :=
  mkGetter (fun s => default None (s !! "shelves")) "s => s.shelves".

Definition optionalOperations : CollectionOperations (option (obj Z)) string Z :=
  {| op_get := fun items key emptyItem =>
       match items with
       | Some items => op_get stringMapOperations items key emptyItem
       | None => emptyItem
       end;
     op_set := fun items key item =>
       Some (op_set stringMapOperations (default ∅ items) key item);
     op_remove := fun items key emptyItem =>
       match items with
       | Some items => Some (op_remove stringMapOperations items key emptyItem)
       | None => None
       end |}.

(** * Properties *)

Local Open Scope list_scope.

(** ** The reducer combinator *)

Section ReducerProperties.
Context {S P : Type} `{!Undefinable S}.
Implicit Types (r : Reducer S P) (c d : ActionDefinition S P).
Implicit Types (ds pre post : list (ActionDefinition S P)).
Implicit Types (a : Action P) (s empty : S).

Lemma isAction_eq a ty : isAction a ty = true <-> type a = ty.
Proof. unfold isAction. apply String.eqb_eq. Qed.

Lemma isAction_ne a ty : isAction a ty = false <-> type a ≠ ty.
Proof. unfold isAction. apply String.eqb_neq. Qed.

Lemma chain_hit ty empty head rest a s :
  type a = ty ->
  r_reduce (chain ty empty head rest) s a = head s (payload a).
Proof. intros Hty. cbn. apply isAction_eq in Hty. by rewrite Hty. Qed.

Lemma chain_miss ty empty head rest a s :
  type a ≠ ty ->
  r_reduce (chain ty empty head rest) s a = rest s a.
Proof. intros Hty. cbn. apply isAction_ne in Hty. by rewrite Hty. Qed.

(** Cases registered later that do not carry the action's tag are skipped. *)
Lemma registered_later_skipped r post a s :
  Forall (fun d => def_type d ≠ type a) post ->
  r_reduce (foldl Reducer_action r post) s a = r_reduce r s a.
Proof.
  intros Hpost. revert r.
  induction Hpost as [|d post Hd _ IH]; intros r; [done|].
  cbn [foldl]. rewrite IH. unfold Reducer_action.
  apply chain_miss. congruence.
Qed.

Lemma registered_empty r ds : r_empty (foldl Reducer_action r ds) = r_empty r.
Proof. revert r. induction ds as [|d ds IH]; intros r; [done|]. cbn. by rewrite IH. Qed.

Lemma build_empty empty d ds : r_empty (build empty d ds) = empty.
Proof. unfold build. by rewrite registered_empty. Qed.

(** Among the cases that carry a tag, one was registered last. *)
Lemma last_registered_exists (ty : string) ds :
  Exists (fun d => def_type d = ty) ds ->
  exists pre c post,
    ds = pre ++ c :: post /\ def_type c = ty /\
    Forall (fun d => def_type d ≠ ty) post.
Proof.
  induction ds as [|d ds IH]; intros Hex; [by apply Exists_nil in Hex|].
  destruct (decide (Exists (fun d => def_type d = ty) ds)) as [Hlater|Hlater].
  - destruct (IH Hlater) as (pre & c & post & -> & Hc & Hpost).
    by exists (d :: pre), c, post.
  - apply Exists_cons in Hex as [Hd|Hds]; [|done].
    exists [], d, ds. split; [done|]. split; [done|].
    apply Forall_forall. intros d' Hd' Heq. apply Hlater.
    apply Exists_exists. by exists d'.
Qed.

(** C2.  In a chain [reducer(empty).action(d).action(d1)...action(dn)], let
    [c] be a registered case with the tag of the action [a] such that no
    case registered after it has that tag.  Then [reduce(state, a)] is
    [c.reduce(state, a.payload)], whatever cases were registered before
    [c] (among them cases with the same tag, which [c] shadows) and after
    it.  When some registered case has the tag of [a], there is such a
    [c]. *)
Theorem chain_dispatches_to_last_registered empty d ds a s :
  (forall pre c post,
      d :: ds = pre ++ c :: post ->
      def_type c = type a ->
      Forall (fun d' => def_type d' ≠ type a) post ->
      r_reduce (build empty d ds) s a = def_reduce c s (payload a)) /\
  (Exists (fun d' => def_type d' = type a) (d :: ds) ->
   exists pre c post,
     d :: ds = pre ++ c :: post /\
     def_type c = type a /\
     Forall (fun d' => def_type d' ≠ type a) post /\
     r_reduce (build empty d ds) s a = def_reduce c s (payload a)).
Proof.
  assert (Hlast : forall pre c post,
             d :: ds = pre ++ c :: post ->
             def_type c = type a ->
             Forall (fun d' => def_type d' ≠ type a) post ->
             r_reduce (build empty d ds) s a = def_reduce c s (payload a)).
  { intros pre c post Hsplit Hc Hpost. unfold build.
    destruct pre as [|d0 pre]; simplify_eq/=.
    - rewrite registered_later_skipped by done.
      unfold Starter_action. by apply chain_hit.
    - rewrite foldl_app. cbn [foldl].
      rewrite registered_later_skipped by done.
      unfold Reducer_action. by apply chain_hit. }
  split; [exact Hlast|].
  intros (pre & c & post & Hsplit & Hc & Hpost)%last_registered_exists.
  exists pre, c, post. eauto.
Qed.

(** C4.  When no registered case carries the tag of the action, [reduce]
    returns a defined state unchanged, and returns the seed [empty] for the
    state [undefined]; no error is raised ([reduce] is a total function). *)
Theorem unhandled_action_falls_through empty d ds a s :
  Forall (fun d' => def_type d' ≠ type a) (d :: ds) ->
  (is_undefined s = false -> r_reduce (build empty d ds) s a = s) /\
  (is_undefined s = true -> r_reduce (build empty d ds) s a = empty).
Proof.
  intros Hall. apply Forall_cons in Hall as [Hd Hds].
  unfold build. rewrite registered_later_skipped by done.
  unfold Starter_action. rewrite chain_miss by congruence.
  unfold passThrough. cbn. split; intros ->; done.
Qed.
End ReducerProperties.

(** The chain on the counter. *)
Lemma chain_dispatches_to_last_registered_witness :
  r_reduce counter (Some 5%Z) (mkAction "INCR" 0%Z) = Some 15%Z.
Proof.
  apply (proj1 (chain_dispatches_to_last_registered (Some 0%Z)
                  (action "INCR" (fun s _ => Some (default 0%Z s + 1)%Z))
                  counterCases (mkAction "INCR" 0%Z) (Some 5%Z))
           [action "INCR" (fun s _ => Some (default 0%Z s + 1)%Z);
            action "SET" (fun _ v => Some v)]
           (action "INCR" (fun s _ => Some (default 0%Z s + 10)%Z)) []).
  - reflexivity.
  - reflexivity.
  - constructor.
Defined.

Lemma unhandled_action_falls_through_witness :
  r_reduce counter (Some 5%Z) (mkAction "RESET" 0%Z) = Some 5%Z /\
  r_reduce counter None (mkAction "RESET" 0%Z) = Some 0%Z.
Proof.
  assert (Hall : Forall (fun d' : ActionDefinition (option Z) Z =>
                           def_type d' ≠ type (mkAction "RESET" 0%Z))
                        (action "INCR" (fun s _ => Some (default 0%Z s + 1)%Z)
                           :: counterCases)).
  { repeat constructor; discriminate. }
  split.
  - apply (unhandled_action_falls_through (Some 0%Z) _ counterCases
             (mkAction "RESET" 0%Z) (Some 5%Z) Hall). reflexivity.
  - apply (unhandled_action_falls_through (Some 0%Z) _ counterCases
             (mkAction "RESET" 0%Z) None Hall). reflexivity.
Defined.

(** ** Cursors *)

Section CursorProperties.
Context {Sigma RS RA : Type}.
Local Abbreviation Cursor := (Cursor (Sigma:=Sigma) (RS:=RS) (RA:=RA)).

Lemma snapshot_inv (store : Store Sigma RS RA) sigma0 sigma0' (c : Cursor RS RA) :
  snapshot store sigma0 = Some (c, sigma0') ->
  c = SnapshotCursor store (state c) /\
  store_getState store sigma0 = Some (state c, sigma0').
Proof.
  unfold snapshot, mbind, Comp_bind, mret, Comp_ret.
  destruct (store_getState store sigma0) as [[s sigma1]|]; [|done].
  intros [= <- <-]. done.
Qed.

(** C3.  A cursor [c] produced by [snapshot(store)], called with an action
    [a] in any later state of the store, runs [store.dispatch(a)] and then
    [snapshot(store)]: the cursor it returns has for [state] the result of
    [store.getState()] read right after the dispatch, and the store is left
    as the two calls leave it. *)
Theorem snapshot_cursor_dispatch (store : Store Sigma RS RA)
        sigma0 sigma0' (c : Cursor RS RA) :
  snapshot store sigma0 = Some (c, sigma0') ->
  forall (a : RA) (sigma : Sigma),
    dispatch c a sigma = (_ ← store_dispatch store a; snapshot store) sigma /\
    (forall a' sigma1 s sigma2,
        store_dispatch store a sigma = Some (a', sigma1) ->
        store_getState store sigma1 = Some (s, sigma2) ->
        exists c', dispatch c a sigma = Some (c', sigma2) /\ state c' = s).
Proof.
  intros Hc a sigma. apply snapshot_inv in Hc as [-> _]. split; [done|].
  intros a' sigma1 s sigma2 Hd Hg. exists (SnapshotCursor store s).
  cbn. unfold snapshot, mbind, Comp_bind, mret, Comp_ret.
  by rewrite Hd, Hg.
Qed.

(** C5.  The cursor [items(fetch, rewrap)(outer, key)] has the state
    [fetch(outer.state, key)]; calling it with [a] calls [outer] with
    [rewrap(key, a)] and derives the inner cursor again, with the same
    [fetch], [rewrap] and [key], from the cursor [outer'] that call returns
    (and throws when that call throws).  The new inner cursor's state is
    therefore [fetch(outer'.state, key)]: nothing is kept from the old
    one. *)
Theorem items_cursor_derived {OS OA K IS IA}
        (fetch : OS -> K -> IS) (rewrap : K -> IA -> OA)
        (outer : Cursor OS OA) (key : K) :
  state (items fetch rewrap outer key) = fetch (state outer) key /\
  forall (a : IA) (sigma : Sigma),
    dispatch (items fetch rewrap outer key) a sigma
    = (outer' ← dispatch outer (rewrap key a);
       mret (items fetch rewrap outer' key)) sigma /\
    match dispatch outer (rewrap key a) sigma with
    | Some (outer', sigma') =>
        exists inner',
          dispatch (items fetch rewrap outer key) a sigma = Some (inner', sigma') /\
          inner' = items fetch rewrap outer' key /\
          state inner' = fetch (state outer') key
    | None => dispatch (items fetch rewrap outer key) a sigma = None
    end.
Proof.
  split; [done|]. intros a sigma. split; [done|].
  cbn. unfold mbind, Comp_bind, mret, Comp_ret.
  destruct (dispatch outer (rewrap key a) sigma) as [[outer' sigma']|]; [|done].
  by eexists.
Qed.

(** Whatever the depth of the navigation, calling a cursor dispatches one
    action on the store, the action wrapped by every [update] on the way,
    and returns the same navigation over the state read back. *)
Lemma dispatch_reaches_store {S A} (c : Cursor S A) (a : A) (sigma : Sigma) :
  dispatch c a sigma
  = (_ ← store_dispatch (root c) (address c a);
     rs ← store_getState (root c);
     mret (rederive c rs)) sigma.
Proof.
  revert a sigma.
  induction c as [store s|OS OA K IS IA fetch update outer IH key];
    intros a sigma.
  - cbn. unfold snapshot, mbind, Comp_bind, mret, Comp_ret.
    destruct (store_dispatch store a sigma) as [[? sigma1]|]; [|done].
    by destruct (store_getState store sigma1) as [[? ?]|].
  - cbn. unfold mbind, Comp_bind at 1. rewrite IH.
    unfold mbind, Comp_bind, mret, Comp_ret.
    destruct (store_dispatch (root outer) _ sigma) as [[? sigma1]|]; [|done].
    by destruct (store_getState (root outer) sigma1) as [[? ?]|].
Qed.

Lemma state_rederive {S A} (c : Cursor S A) (rs : RS) :
  state (rederive c rs) = view c rs.
Proof. induction c; cbn; [done|]. by f_equal. Qed.
End CursorProperties.

(** ** Objects and the container operations *)

Section ObjectProperties.
Context {V : Type}.
Implicit Types (o target source : obj V).

Lemma set_property_ne target key (value : V) :
  key ≠ "__proto__"%string ->
  set_property target key value = <[key := value]> target.
Proof.
  intros Hkey. unfold set_property. apply String.eqb_neq in Hkey.
  rewrite Hkey. by destruct (target !! key).
Qed.

Lemma set_property_own target key (value : V) :
  is_Some (target !! key) ->
  set_property target key value = <[key := value]> target.
Proof. intros [x Hx]. unfold set_property. by rewrite Hx. Qed.

(** An object that owns no [__proto__] gets none by assignment. *)
Lemma set_property_proto target (value : V) :
  target !! "__proto__"%string = None ->
  set_property target "__proto__" value = target.
Proof. intros Ht. unfold set_property. by rewrite Ht. Qed.

Lemma copied_empty target : copied target (∅ : obj V) = ∅.
Proof. unfold copied. destruct (target !! _); [done|]. apply delete_empty. Qed.

Lemma copied_plain target source :
  source !! "__proto__"%string = None -> copied target source = source.
Proof.
  intros Hs. unfold copied. destruct (target !! _); [done|]. by apply delete_id.
Qed.

Lemma copied_lookup_ne target source key :
  key ≠ "__proto__"%string -> copied target source !! key = source !! key.
Proof.
  intros Hkey. unfold copied. destruct (target !! _); [done|].
  by apply lookup_delete_ne.
Qed.

(** One step of [assign] on a target that already holds what was copied
    from [m]. *)
Lemma set_property_copied target m key (value : V) :
  m !! key = None ->
  set_property (copied target m ∪ target) key value
  = copied target (<[key := value]> m) ∪ target.
Proof.
  intros Hm. unfold copied.
  destruct (target !! "__proto__"%string) as [x|] eqn:Hproto.
  - destruct (decide (key = "__proto__"%string)) as [->|Hkey].
    + rewrite set_property_own; [by rewrite insert_union_l|].
      exists x. by rewrite lookup_union_r.
    + by rewrite set_property_ne, insert_union_l.
  - destruct (decide (key = "__proto__"%string)) as [->|Hkey].
    + rewrite delete_insert_eq. apply set_property_proto.
      apply lookup_union_None. by rewrite lookup_delete_eq.
    + rewrite set_property_ne, insert_union_l by done.
      by rewrite delete_insert_ne.
Qed.

(** One source overrides the target on the keys that are copied. *)
Lemma assign_from_copied target source :
  assign_from target source = copied target source ∪ target.
Proof.
  unfold assign_from.
  apply (map_fold_weak_ind (fun r m => r = copied target m ∪ target)).
  - by rewrite copied_empty, (left_id_L ∅ (∪)).
  - intros key value m r Hm ->. by apply set_property_copied.
Qed.

Lemma assign_from_plain target source :
  source !! "__proto__"%string = None ->
  assign_from target source = source ∪ target.
Proof. intros Hs. by rewrite assign_from_copied, copied_plain. Qed.

(** The copy made by [assign({}, o)] owns no [__proto__]. *)
Lemma assign_copy o : assign ∅ [o] = delete "__proto__" o.
Proof.
  cbn. rewrite assign_from_copied. unfold copied. rewrite lookup_empty.
  apply (right_id_L ∅ (∪)).
Qed.

Lemma amend_union o1 o2 : amend o1 o2 = delete "__proto__" (o2 ∪ o1).
Proof.
  unfold amend. cbn. rewrite !assign_from_copied. unfold copied.
  rewrite lookup_empty, (right_id_L ∅ (∪)), lookup_delete_eq.
  by rewrite delete_union.
Qed.

Lemma amend_plain o1 o2 :
  o1 !! "__proto__"%string = None -> o2 !! "__proto__"%string = None ->
  amend o1 o2 = o2 ∪ o1.
Proof.
  intros H1 H2. rewrite amend_union. apply delete_id.
  by apply lookup_union_None.
Qed.

(** [amend(o, { [name]: value })] overwrites one property; an own
    [__proto__] of [o] is not copied. *)
Lemma amend_singleton o name (value : V) :
  name ≠ "__proto__"%string ->
  amend o {[ name := value ]} = <[name := value]> (delete "__proto__" o).
Proof.
  intros Hname. rewrite amend_union, <-insert_union_singleton_l.
  by rewrite delete_insert_ne.
Qed.

(** With the name [__proto__] it stores nothing. *)
Lemma amend_singleton_proto o (value : V) :
  amend o {[ "__proto__"%string := value ]} = delete "__proto__" o.
Proof.
  rewrite amend_union, <-insert_union_singleton_l. apply delete_insert_eq.
Qed.

Lemma field_setter_insert name o (value : V) :
  name ≠ "__proto__"%string ->
  field_setter (F := obj V -> V -> obj V) name o value
  = <[name := value]> (delete "__proto__" o).
Proof. apply amend_singleton. Qed.
End ObjectProperties.

Section MapOperationsProperties.
Context {K I : Type}.

Lemma builtIn_get_eq `{!PropertyKey K} (items : obj I) (key : K) e :
  op_get builtInOperations items key e = default e (items !! property_key key).
Proof. cbn. by destruct (items !! property_key key). Qed.

Lemma builtIn_set_eq `{!PropertyKey K} (items : obj I) (key : K) item :
  property_key key ≠ "__proto__"%string ->
  op_set builtInOperations items key item
  = <[property_key key := item]> (delete "__proto__" items).
Proof. apply amend_singleton. Qed.

Lemma builtIn_set_proto `{!PropertyKey K} (items : obj I) (key : K) item :
  property_key key = "__proto__"%string ->
  op_set builtInOperations items key item = delete "__proto__" items.
Proof.
  intros Hkey. cbn [op_set builtInOperations]. rewrite Hkey.
  apply amend_singleton_proto.
Qed.

Lemma builtIn_remove_eq `{!PropertyKey K} (items : obj I) (key : K) e :
  op_remove builtInOperations items key e
  = delete (property_key key) (delete "__proto__" items).
Proof. cbn [op_remove builtInOperations]. by rewrite assign_copy. Qed.
End MapOperationsProperties.

Section ArrayProperties.
Context {I : Type}.
Implicit Types (items : array I) (key : nat).

Lemma length_set_index items key item :
  length (array_set_index items key item) = length items `max` S key.
Proof.
  unfold array_set_index. case_decide.
  - rewrite length_insert. lia.
  - rewrite !length_app, length_replicate. cbn. lia.
Qed.

Lemma lookup_set_index_eq items key item :
  array_set_index items key item !! key = Some (Some item).
Proof.
  unfold array_set_index. case_decide.
  - by apply list_lookup_insert_eq.
  - rewrite lookup_app_r by lia.
    rewrite lookup_app_r by (rewrite length_replicate; lia).
    rewrite length_replicate.
    by replace (key - length items - (key - length items)) with 0 by lia.
Qed.

Lemma lookup_set_index_ne items key item j :
  j ≠ key -> j < length items ->
  array_set_index items key item !! j = items !! j.
Proof.
  intros Hne Hlt. unfold array_set_index. case_decide.
  - by apply list_lookup_insert_ne.
  - by apply lookup_app_l.
Qed.

(** Slots created below an index that lies beyond the end are holes. *)
Lemma lookup_set_index_hole items key item j :
  length items <= j < key ->
  array_set_index items key item !! j = Some None.
Proof.
  intros [Hle Hlt]. unfold array_set_index. case_decide; [lia|].
  rewrite lookup_app_r by done.
  rewrite lookup_app_l by (rewrite length_replicate; lia).
  apply lookup_replicate_2. lia.
Qed.

Lemma set_index_in_range items key item :
  key < length items ->
  array_set_index items key item = <[key := Some item]> items.
Proof. intros Hlt. unfold array_set_index. by case_decide. Qed.

Lemma set_index_idempotent items key item :
  array_set_index (array_set_index items key item) key item
  = array_set_index items key item.
Proof.
  rewrite (set_index_in_range (array_set_index items key item))
    by (rewrite length_set_index; lia).
  apply list_insert_id, lookup_set_index_eq.
Qed.

(** [splice(key, 1, item)] overwrites a slot that exists and appends
    otherwise. *)
Lemma splice_in_range items key item :
  key < length items ->
  array_splice items key 1 item = <[key := Some item]> items.
Proof.
  intros Hlt. unfold array_splice.
  rewrite Nat.min_l by lia.
  replace (1 `min` (length items - key)) with 1 by lia.
  rewrite insert_take_drop by done. by rewrite Nat.add_1_r.
Qed.

Lemma splice_beyond items key item :
  length items <= key ->
  array_splice items key 1 item = (items ++ [Some item])%list.
Proof.
  intros Hle. unfold array_splice.
  rewrite Nat.min_r by lia.
  rewrite take_ge by done. rewrite drop_ge by lia. done.
Qed.
End ArrayProperties.

(** ** The mutable embedding computes the functional one *)

Section MutProperties.
Implicit Types (h : Mut.heap) (l : Mut.loc) (o target source : obj Mut.val).
Implicit Types (slots : array Mut.val) (v : Mut.val).

Ltac run :=
  unfold mbind, Comp_bind, mret, Comp_ret, Mut.read, Mut.write, Mut.alloc.

Lemma get_prop_run h l o key :
  h !! l = Some (Mut.CObj o) ->
  Mut.get_prop (Mut.VRef l) key h = Some (default Mut.VUndefined (o !! key), h).
Proof. intros Hl. unfold Mut.get_prop. run. by rewrite Hl. Qed.

Lemma set_prop_run h l o key v :
  h !! l = Some (Mut.CObj o) ->
  Mut.set_prop (Mut.VRef l) key v h
  = Some (tt, <[l := Mut.CObj (set_property o key v)]> h).
Proof.
  intros Hl. unfold Mut.set_prop. run. rewrite Hl.
  apply lookup_lt_Some in Hl. by rewrite decide_True.
Qed.

Lemma delete_prop_run h l o key :
  h !! l = Some (Mut.CObj o) ->
  Mut.delete_prop (Mut.VRef l) key h
  = Some (tt, <[l := Mut.CObj (delete key o)]> h).
Proof.
  intros Hl. unfold Mut.delete_prop. run. rewrite Hl.
  apply lookup_lt_Some in Hl. by rewrite decide_True.
Qed.

Lemma keys_run h l o :
  h !! l = Some (Mut.CObj o) ->
  Mut.keys (Mut.VRef l) h = Some ((map_to_list o).*1, h).
Proof. intros Hl. unfold Mut.keys. run. by rewrite Hl. Qed.

(** The inner loop, over any list of properties of the source. *)
Lemma assign_keys_run (kvs : list (string * Mut.val)) h lt ls target source :
  h !! lt = Some (Mut.CObj target) ->
  h !! ls = Some (Mut.CObj source) ->
  lt ≠ ls ->
  Forall (fun kv => source !! kv.1 = Some kv.2) kvs ->
  Mut.assign_keys (Mut.VRef lt) (Mut.VRef ls) kvs.*1 h
  = Some (tt, <[lt := Mut.CObj (foldl (fun t kv => set_property t kv.1 kv.2)
                                      target kvs)]> h).
Proof.
  intros Ht Hs Hne Hkvs. revert h target Ht Hs.
  induction Hkvs as [|[k v] kvs Hk _ IH]; intros h target Ht Hs; cbn.
  - unfold mret, Comp_ret. by rewrite list_insert_id.
  - unfold mbind, Comp_bind at 1. rewrite (get_prop_run _ _ _ _ Hs).
    cbn in Hk. rewrite Hk. cbn.
    unfold mbind, Comp_bind at 1. rewrite (set_prop_run _ _ _ _ _ Ht).
    rewrite (IH _ (set_property target k v)).
    + by rewrite list_insert_insert_eq.
    + apply list_lookup_insert_eq. by apply lookup_lt_Some in Ht.
    + by rewrite list_lookup_insert_ne.
Qed.

Lemma foldl_set_property_copied (kvs : list (string * Mut.val)) target :
  NoDup kvs.*1 ->
  foldl (fun t kv => set_property t kv.1 kv.2) target kvs
  = copied target (list_to_map kvs) ∪ target.
Proof.
  induction kvs as [|[k v] kvs IH] using rev_ind; intros Hnd.
  - cbn. by rewrite copied_empty, (left_id_L ∅ (∪)).
  - rewrite fmap_app in Hnd. apply NoDup_app in Hnd as (Hnd & Hk & _).
    rewrite foldl_snoc, IH by done. cbn [fst snd].
    rewrite set_property_copied.
    + rewrite list_to_map_snoc; [done|]. intros Hin. apply (Hk _ Hin).
      cbn. apply list_elem_of_here.
    + apply not_elem_of_list_to_map_1. intros Hin. apply (Hk _ Hin).
      cbn. apply list_elem_of_here.
Qed.

(** One round of the outer loop copies the source into the target. *)
Lemma assign_source_run h lt ls target source :
  h !! lt = Some (Mut.CObj target) ->
  h !! ls = Some (Mut.CObj source) ->
  lt ≠ ls ->
  (ks ← Mut.keys (Mut.VRef ls); Mut.assign_keys (Mut.VRef lt) (Mut.VRef ls) ks) h
  = Some (tt, <[lt := Mut.CObj (assign_from target source)]> h).
Proof.
  intros Ht Hs Hne. unfold mbind, Comp_bind at 1.
  rewrite (keys_run _ _ _ Hs).
  rewrite (assign_keys_run _ _ _ _ _ _ Ht Hs Hne).
  - rewrite foldl_set_property_copied by apply NoDup_fst_map_to_list.
    by rewrite list_to_map_to_list, assign_from_copied.
  - apply Forall_forall. intros [k v]. apply elem_of_map_to_list.
Qed.

(** [assign({}, ...sources)] on a target that is none of the sources. *)
Lemma assign_run (srcs : list (Mut.loc * obj Mut.val)) h lt target :
  h !! lt = Some (Mut.CObj target) ->
  Forall (fun s => h !! s.1 = Some (Mut.CObj s.2) /\ lt ≠ s.1) srcs ->
  Mut.assign (Mut.VRef lt) (Mut.VRef <$> srcs.*1) h
  = Some (Mut.VRef lt, <[lt := Mut.CObj (assign target srcs.*2)]> h).
Proof.
  intros Ht Hsrcs. revert h target Ht Hsrcs.
  induction srcs as [|[ls source] srcs IH]; intros h target Ht Hsrcs; cbn.
  - unfold mret, Comp_ret. by rewrite list_insert_id.
  - apply Forall_cons in Hsrcs as [[Hs Hne] Hsrcs]. cbn in Hs, Hne.
    pose proof (assign_source_run _ _ _ _ _ Ht Hs Hne) as Hrun.
    unfold mbind, Comp_bind in Hrun |- *.
    destruct (Mut.keys (Mut.VRef ls) h) as [[ks h1]|]; [|done].
    rewrite Hrun. rewrite (IH _ (assign_from target source)).
    + by rewrite list_insert_insert_eq.
    + apply list_lookup_insert_eq. by apply lookup_lt_Some in Ht.
    + eapply Forall_impl; [exact Hsrcs|]. intros [l o] [Hl Hne']. cbn in *.
      by rewrite list_lookup_insert_ne.
Qed.

Lemma insert_new_cell h (c c' : Mut.cell) :
  <[length h := c']> (h ++ [c]) = (h ++ [c'])%list.
Proof.
  replace (length h) with (length h + 0) by lia.
  by rewrite insert_app_r.
Qed.

(** [amend(o1, o2)] allocates one object, whose properties are those of
    the functional [amend]; the cells of the heap it started from are as
    they were. *)
Lemma amend_run h l1 l2 o1 o2 :
  h !! l1 = Some (Mut.CObj o1) ->
  h !! l2 = Some (Mut.CObj o2) ->
  Mut.amend (Mut.VRef l1) (Mut.VRef l2) h
  = Some (Mut.VRef (length h), (h ++ [Mut.CObj (amend o1 o2)])%list).
Proof.
  intros H1 H2. unfold Mut.amend. unfold mbind, Comp_bind at 1. cbn [Mut.alloc].
  pose proof (lookup_lt_Some _ _ _ H1). pose proof (lookup_lt_Some _ _ _ H2).
  rewrite (assign_run [(l1, o1); (l2, o2)] _ _ ∅).
  - by rewrite insert_new_cell.
  - by rewrite lookup_app_r, Nat.sub_diag.
  - repeat constructor; cbn; try lia; by rewrite lookup_app_l.
Qed.

(** The synthesised setter allocates the literal [{ [name]: value }] and
    the amended copy of [state]. *)
Lemma field_setter_run h l o name v :
  h !! l = Some (Mut.CObj o) ->
  field_setter (F := Mut.val -> Mut.val -> Mut.M Mut.val) name (Mut.VRef l) v h
  = Some (Mut.VRef (S (length h)),
          h ++ [Mut.CObj {[ name := v ]};
                Mut.CObj (amend o {[ name := v ]})]).
Proof.
  intros Hl. unfold field_setter, Mut.ref_field_setter.
  unfold mbind, Comp_bind at 1. cbn [Mut.alloc].
  rewrite (amend_run _ l (length h) o {[ name := v ]}).
  - rewrite length_app, <-app_assoc. cbn.
    by rewrite Nat.add_1_r.
  - rewrite lookup_app_l; [done|]. by apply lookup_lt_Some in Hl.
  - by rewrite lookup_app_r, Nat.sub_diag.
Qed.

Lemma builtIn_get_run `{!PropertyKey K} h l o (key : K) e :
  h !! l = Some (Mut.CObj o) ->
  Mut.builtIn_get (Mut.VRef l) (property_key key) e h
  = Some (op_get builtInOperations o key e, h).
Proof.
  intros Hl. unfold Mut.builtIn_get, Mut.hasOwnProperty. run. rewrite Hl. cbn.
  destruct (o !! property_key key) as [item|] eqn:Hkey.
  - rewrite bool_decide_true by eauto.
    rewrite (get_prop_run _ _ _ _ Hl), Hkey. done.
  - rewrite bool_decide_false; [done|]. by intros [? ?].
Qed.

Lemma builtIn_set_run `{!PropertyKey K} h l o (key : K) item :
  h !! l = Some (Mut.CObj o) ->
  Mut.builtIn_set (Mut.VRef l) (property_key key) item h
  = Some (Mut.VRef (S (length h)),
          h ++ [Mut.CObj {[ property_key key := item ]};
                Mut.CObj (op_set builtInOperations o key item)]).
Proof. intros Hl. by apply field_setter_run. Qed.

Lemma builtIn_remove_run `{!PropertyKey K} h l o (key : K) e :
  h !! l = Some (Mut.CObj o) ->
  Mut.builtIn_remove (Mut.VRef l) (property_key key) h
  = Some (Mut.VRef (length h),
          h ++ [Mut.CObj (op_remove builtInOperations o key e)]).
Proof.
  intros Hl. unfold Mut.builtIn_remove.
  unfold mbind, Comp_bind at 1. cbn [Mut.alloc].
  pose proof (lookup_lt_Some _ _ _ Hl).
  unfold mbind, Comp_bind at 1.
  rewrite (assign_run [(l, o)] _ _ ∅).
  - rewrite insert_new_cell. unfold mbind, Comp_bind at 1.
    rewrite (delete_prop_run _ _ (assign ∅ [o]) _).
    + by rewrite insert_new_cell.
    + by rewrite lookup_app_r, Nat.sub_diag.
  - by rewrite lookup_app_r, Nat.sub_diag.
  - repeat constructor; cbn; try lia; by rewrite lookup_app_l.
Qed.

Lemma array_get_run h l slots key e :
  h !! l = Some (Mut.CArr slots) ->
  Mut.array_get (Mut.VRef l) key e h
  = Some (op_get arrayOperations slots key e, h).
Proof.
  intros Hl. unfold Mut.array_get, Mut.get_index. run. rewrite Hl. cbn.
  by destruct (slots !! key) as [[r|]|].
Qed.

Lemma array_set_run h l slots key item :
  h !! l = Some (Mut.CArr slots) ->
  Mut.array_set (Mut.VRef l) key item h
  = Some (Mut.VRef (length h),
          h ++ [Mut.CArr (op_set arrayOperations slots key item)]).
Proof.
  intros Hl. unfold Mut.array_set, Mut.slice0, Mut.splice. run. rewrite Hl. cbn.
  rewrite lookup_app_r, Nat.sub_diag by done. cbn.
  rewrite decide_True by (rewrite length_app; cbn; lia).
  by rewrite insert_new_cell.
Qed.

Lemma array_remove_run h l slots key e :
  h !! l = Some (Mut.CArr slots) ->
  Mut.array_remove (Mut.VRef l) key e h
  = Some (Mut.VRef (length h),
          h ++ [Mut.CArr (op_remove arrayOperations slots key e)]).
Proof.
  intros Hl. unfold Mut.array_remove, Mut.slice0, Mut.set_index. run.
  rewrite Hl. cbn.
  rewrite lookup_app_r, Nat.sub_diag by done. cbn.
  rewrite decide_True by (rewrite length_app; cbn; lia).
  by rewrite insert_new_cell.
Qed.

(** Appending cells leaves the cells of the heap as they were. *)
Lemma heap_frame h (new : list Mut.cell) l :
  l < length h -> (h ++ new) !! l = h !! l.
Proof. apply lookup_app_l. Qed.
End MutProperties.

(** ** The patterns of [ensureReducer] *)

Section RegexProperties.
Implicit Types (r : regex) (t : term) (s a b acc : list ascii) (c : ascii).

(** A greedy run that takes all of [a] and stops succeeds at once when the
    continuation accepts that split. *)
Lemma many_takes_all {R} cs (k : list ascii -> list ascii -> option R) acc a b res :
  forallb (in_set cs) a = true ->
  stops cs b = true ->
  k (acc ++ a) b = Some res ->
  many cs k acc (a ++ b) = Some res.
Proof.
  revert acc. induction a as [|c a IH]; intros acc Ha Hb Hk.
  - rewrite app_nil_r in Hk. cbn. destruct b as [|c b]; [done|].
    cbn in Hb. apply negb_true_iff in Hb. cbn. by rewrite Hb.
  - cbn in Ha. apply andb_true_iff in Ha as [Hc Ha]. cbn. rewrite Hc.
    rewrite (IH (acc ++ [c])); [done..|]. by rewrite <-app_assoc.
Qed.

Lemma matchHere_once t r c s groups res :
  term_quant t = Once ->
  res = captured_by t [c] groups ->
  in_set (term_set t) c = true ->
  matchHere r s = Some groups ->
  matchHere (t :: r) (c :: s) = Some res.
Proof. intros Hq -> Hc Hr. cbn. by rewrite Hq, Hc, Hr. Qed.

Lemma matchHere_optional_skip t r s groups res :
  term_quant t = Optional ->
  res = captured_by t [] groups ->
  stops (term_set t) s = true ->
  matchHere r s = Some groups ->
  matchHere (t :: r) s = Some res.
Proof.
  intros Hq -> Hs Hr. cbn. rewrite Hq. destruct s as [|c s].
  - by rewrite Hr.
  - cbn in Hs. apply negb_true_iff in Hs. by rewrite Hs, Hr.
Qed.

Lemma matchHere_star t r a b groups res :
  term_quant t = ZeroOrMore ->
  res = captured_by t a groups ->
  forallb (in_set (term_set t)) a = true ->
  stops (term_set t) b = true ->
  matchHere r b = Some groups ->
  matchHere (t :: r) (a ++ b) = Some res.
Proof.
  intros Hq -> Ha Hb Hr. cbn. rewrite Hq.
  apply many_takes_all; [done..|]. by rewrite Hr.
Qed.

Lemma matchHere_plus t r c a b groups res :
  term_quant t = OneOrMore ->
  res = captured_by t (c :: a) groups ->
  forallb (in_set (term_set t)) (c :: a) = true ->
  stops (term_set t) b = true ->
  matchHere r b = Some groups ->
  matchHere (t :: r) (c :: a ++ b) = Some res.
Proof.
  intros Hq -> Ha Hb Hr. cbn in Ha. apply andb_true_iff in Ha as [Hc Ha].
  cbn. rewrite Hq, Hc.
  apply (many_takes_all _ _ [c]); [done..|]. by rewrite Hr.
Qed.

Lemma in_set_lit_refl c : in_set (Lit c) c = true.
Proof. cbn. apply Ascii.eqb_refl. Qed.

(** A literal word matches itself. *)
Lemma matchHere_lit (w : string) r s groups :
  matchHere r s = Some groups ->
  matchHere (lit w ++ r) (list_ascii_of_string w ++ s) = Some groups.
Proof.
  intros Hr. unfold lit. induction w as [|c w IH]; [done|].
  cbn [list_ascii_of_string fmap list_fmap app].
  by apply (matchHere_once (mkTerm (Lit c) Once false) _ _ _ groups);
    [| |apply in_set_lit_refl|].
Qed.

(** A pattern with a mandatory term that no character of the text can
    match has no match in the text. *)
Lemma many_none {R} cs (k : list ascii -> list ascii -> option R)
      (P : list ascii -> Prop) acc s :
  (forall c s', P (c :: s') -> P s') ->
  (forall acc' s', P s' -> k acc' s' = None) ->
  P s ->
  many cs k acc s = None.
Proof.
  intros Htail Hk. revert acc.
  induction s as [|c s IH]; intros acc Hs; cbn; [by apply Hk|].
  destruct (in_set cs c); [|by apply Hk].
  rewrite IH by eauto. by apply Hk.
Qed.

Lemma matchHere_missing cs r s :
  Exists (fun t => mandatory t = true /\ term_set t = cs) r ->
  Forall (fun c => in_set cs c = false) s ->
  matchHere r s = None.
Proof.
  intros Hex. revert s.
  induction r as [|t r IH]; intros s Hs; [by apply Exists_nil in Hex|].
  apply Exists_cons in Hex as [[Hm <-]|Hex].
  - unfold mandatory in Hm. cbn.
    destruct (term_quant t); try done;
      (destruct s as [|c s]; [done|]; apply Forall_cons in Hs as [-> _]; done).
  - specialize (IH Hex). cbn [matchHere].
    assert (Hk : forall acc' s',
               Forall (fun c => in_set cs c = false) s' ->
               match matchHere r s' with
               | Some groups =>
                   Some (if term_captured t
                         then string_of_list_ascii acc' :: groups else groups)
               | None => None
               end = None).
    { intros acc' s' Hs'. by rewrite IH. }
    assert (Htail : forall c s',
               Forall (fun c => in_set cs c = false) (c :: s') ->
               Forall (fun c => in_set cs c = false) s').
    { intros c s' Hcs. by apply Forall_cons in Hcs as [_ ?]. }
    destruct (term_quant t).
    + destruct s as [|c s]; [done|]. destruct (in_set (term_set t) c); [|done].
      apply (Hk [c]). eauto.
    + destruct s as [|c s]; [by apply Hk|].
      destruct (in_set (term_set t) c); [|by apply Hk].
      rewrite (Hk [c] s) by eauto. by apply Hk.
    + by apply (many_none _ _ (Forall (fun c => in_set cs c = false))).
    + destruct s as [|c s]; [done|]. destruct (in_set (term_set t) c); [|done].
      apply (many_none _ _ (Forall (fun c => in_set cs c = false))); eauto.
Qed.

Lemma exec_missing cs r (src : string) :
  Exists (fun t => mandatory t = true /\ term_set t = cs) r ->
  Forall (fun c => in_set cs c = false) (list_ascii_of_string src) ->
  exec r src = None.
Proof.
  intros Hex. unfold exec.
  induction (list_ascii_of_string src) as [|c s IH]; intros Hs; cbn.
  - by rewrite (matchHere_missing cs).
  - rewrite (matchHere_missing cs) by done.
    apply IH. by apply Forall_cons in Hs as [_ ?].
Qed.

Lemma exec_matchHere r (src : string) groups :
  matchHere r (list_ascii_of_string src) = Some groups ->
  exec r src = Some groups.
Proof.
  unfold exec. intros Hm.
  destruct (list_ascii_of_string src); cbn; by rewrite Hm.
Qed.

Lemma letter_not_space c : is_letter c = true -> is_space c = false.
Proof.
  destruct c as [b0 b1 b2 b3 b4 b5 b6 b7].
  destruct b0, b1, b2, b3, b4, b5, b6, b7; vm_compute; congruence.
Qed.

Lemma letter_not_open_paren c :
  is_letter c = true -> in_set (Lit "("%char) c = false.
Proof.
  destruct c as [b0 b1 b2 b3 b4 b5 b6 b7].
  destruct b0, b1, b2, b3, b4, b5, b6, b7; vm_compute; congruence.
Qed.

Lemma list_ascii_of_string_app (u w : string) :
  list_ascii_of_string (u ++ w)
  = list_ascii_of_string u ++ list_ascii_of_string w.
Proof.
  induction u as [|c u IH]; [done|].
  change (c :: list_ascii_of_string (u ++ w)
          = c :: list_ascii_of_string u ++ list_ascii_of_string w).
  by rewrite IH.
Qed.

Lemma letters_inv name :
  letters name = true ->
  exists c cs, list_ascii_of_string name = c :: cs /\
               forallb is_letter (c :: cs) = true.
Proof.
  unfold letters. destruct (list_ascii_of_string name) as [|c cs]; [done|].
  intros H. by exists c, cs.
Qed.

Ltac step_skip :=
  eapply matchHere_optional_skip; [reflexivity|reflexivity| |].
Ltac step_star a b :=
  eapply (matchHere_star _ _ a b); [reflexivity|reflexivity| | |].
Ltac step_plus c a b :=
  eapply (matchHere_plus _ _ c a b); [reflexivity|reflexivity| | |].
Ltac step_lit w := eapply (matchHere_lit w).
Ltac stops_by H := apply negb_true_iff; exact H.

Lemma space_not_letter c : is_space c = true -> is_letter c = false.
Proof.
  destruct c as [b0 b1 b2 b3 b4 b5 b6 b7].
  destruct b0, b1, b2, b3, b4, b5, b6, b7; vm_compute; congruence.
Qed.

Lemma letter_not_brace c :
  is_letter c = true -> in_set (Lit "{"%char) c = false.
Proof.
  destruct c as [b0 b1 b2 b3 b4 b5 b6 b7].
  destruct b0, b1, b2, b3, b4, b5, b6, b7; vm_compute; congruence.
Qed.

Lemma space_not_brace c :
  is_space c = true -> in_set (Lit "{"%char) c = false.
Proof.
  destruct c as [b0 b1 b2 b3 b4 b5 b6 b7].
  destruct b0, b1, b2, b3, b4, b5, b6, b7; vm_compute; congruence.
Qed.

Lemma closing_not_letter c :
  is_space c || Ascii.eqb c ";" || Ascii.eqb c "}" = true -> is_letter c = false.
Proof.
  destruct c as [b0 b1 b2 b3 b4 b5 b6 b7].
  destruct b0, b1, b2, b3, b4, b5, b6, b7; vm_compute; congruence.
Qed.

Lemma matchHere_optional_take t r c s groups res :
  term_quant t = Optional ->
  res = captured_by t [c] groups ->
  in_set (term_set t) c = true ->
  matchHere r s = Some groups ->
  matchHere (t :: r) (c :: s) = Some res.
Proof. intros Hq -> Hc Hr. cbn. by rewrite Hq, Hc, Hr. Qed.

(** A run of letters stops in front of white space. *)
Lemma stops_letter_blank w s :
  forallb is_space w = true ->
  stops Letter s = true ->
  stops Letter (w ++ s) = true.
Proof.
  destruct w as [|c w]; [done|]. cbn. intros Hw _.
  apply andb_true_iff in Hw as [Hc _]. by rewrite (space_not_letter c).
Qed.

Ltac step_take c :=
  eapply (matchHere_optional_take _ _ c); [reflexivity|reflexivity|reflexivity|].

(** The part of the lambda pattern that starts at the arrow. *)
Lemma matchHere_arrow_body w4 cq lq cf lf :
  forallb is_space w4 = true ->
  forallb is_letter (cq :: lq) = true ->
  forallb is_letter (cf :: lf) = true ->
  matchHere (lit "=>" ++ [spaces; group_letters] ++ lit "." ++ [group_letters])
            ("=" :: ">" :: w4 ++ (cq :: lq) ++ "." :: cf :: lf)%char
  = Some [string_of_list_ascii (cq :: lq); string_of_list_ascii (cf :: lf)].
Proof.
  intros Hw4 Hq Hf.
  assert (Hcq : is_letter cq = true)
    by (cbn in Hq; by apply andb_true_iff in Hq as [? _]).
  pose proof (letter_not_space _ Hcq) as Hspace.
  step_lit "=>"%string. cbn [app].
  step_star w4 (cq :: lq ++ "." :: cf :: lf)%char; [done|stops_by Hspace|].
  step_plus cq lq ("." :: cf :: lf)%char; [done|done|].
  step_lit "."%string.
  rewrite <-(app_nil_r lf) at 1.
  step_plus cf lf (@nil ascii); [done|done|].
  done.
Qed.

(** An arrow getter with its parameter in parentheses. *)
Lemma matchLambda_paren w1 w2 w3 w4 cp lp cq lq cf lf :
  forallb is_space w1 = true -> forallb is_space w2 = true ->
  forallb is_space w3 = true -> forallb is_space w4 = true ->
  forallb is_letter (cp :: lp) = true ->
  forallb is_letter (cq :: lq) = true ->
  forallb is_letter (cf :: lf) = true ->
  matchHere matchLambda
    ("(" :: w1 ++ (cp :: lp) ++ w2 ++ ")" :: w3
         ++ "=" :: ">" :: w4 ++ (cq :: lq) ++ "." :: cf :: lf)%char
  = Some [string_of_list_ascii (cp :: lp); string_of_list_ascii (cq :: lq);
          string_of_list_ascii (cf :: lf)].
Proof.
  intros Hw1 Hw2 Hw3 Hw4 Hp Hq Hf.
  assert (Hcp : is_letter cp = true)
    by (cbn in Hp; by apply andb_true_iff in Hp as [? _]).
  pose proof (letter_not_space _ Hcp) as Hspace.
  unfold matchLambda. cbn [app].
  step_take "("%char.
  step_star w1 (cp :: lp ++ w2 ++ ")" :: w3
                   ++ "=" :: ">" :: w4 ++ cq :: lq ++ "." :: cf :: lf)%char;
    [done|stops_by Hspace|].
  step_plus cp lp (w2 ++ ")" :: w3
                      ++ "=" :: ">" :: w4 ++ cq :: lq ++ "." :: cf :: lf)%char;
    [done|by apply stops_letter_blank|].
  step_star w2 (")" :: w3 ++ "=" :: ">" :: w4 ++ cq :: lq ++ "." :: cf :: lf)%char;
    [done|done|].
  step_take ")"%char.
  step_star w3 ("=" :: ">" :: w4 ++ cq :: lq ++ "." :: cf :: lf)%char;
    [done|done|].
  by apply matchHere_arrow_body.
Qed.

(** An arrow getter with a bare parameter. *)
Lemma matchLambda_bare w3 w4 cp lp cq lq cf lf :
  forallb is_space w3 = true -> forallb is_space w4 = true ->
  forallb is_letter (cp :: lp) = true ->
  forallb is_letter (cq :: lq) = true ->
  forallb is_letter (cf :: lf) = true ->
  matchHere matchLambda
    ((cp :: lp) ++ w3 ++ "=" :: ">" :: w4 ++ (cq :: lq) ++ "." :: cf :: lf)%char
  = Some [string_of_list_ascii (cp :: lp); string_of_list_ascii (cq :: lq);
          string_of_list_ascii (cf :: lf)].
Proof.
  intros Hw3 Hw4 Hp Hq Hf.
  assert (Hcp : is_letter cp = true)
    by (cbn in Hp; by apply andb_true_iff in Hp as [? _]).
  pose proof (letter_not_space _ Hcp) as Hspace.
  pose proof (letter_not_open_paren _ Hcp) as Hparen.
  unfold matchLambda. cbn [app].
  step_skip; [stops_by Hparen|].
  step_star (@nil ascii)
    (cp :: lp ++ w3 ++ "=" :: ">" :: w4 ++ cq :: lq ++ "." :: cf :: lf)%char;
    [done|stops_by Hspace|].
  step_plus cp lp (w3 ++ "=" :: ">" :: w4 ++ cq :: lq ++ "." :: cf :: lf)%char;
    [done|by apply stops_letter_blank|].
  step_star w3 ("=" :: ">" :: w4 ++ cq :: lq ++ "." :: cf :: lf)%char;
    [done|done|].
  step_skip; [done|].
  step_star (@nil ascii) ("=" :: ">" :: w4 ++ cq :: lq ++ "." :: cf :: lf)%char;
    [done|done|].
  by apply matchHere_arrow_body.
Qed.

(** The part of the function pattern that starts at the parameter list; it
    ignores what follows the property. *)
Lemma matchHere_function_body w2 w3 w4 w5 c6 l6 cp lp cq lq cf lf rest :
  forallb is_space w2 = true -> forallb is_space w3 = true ->
  forallb is_space w4 = true -> forallb is_space w5 = true ->
  forallb is_space (c6 :: l6) = true ->
  forallb is_letter (cp :: lp) = true ->
  forallb is_letter (cq :: lq) = true ->
  forallb is_letter (cf :: lf) = true ->
  stops Letter rest = true ->
  matchHere
    (lit "(" ++ [spaces; group_letters; spaces]
       ++ lit ")" ++ [spaces]
       ++ lit "{" ++ [spaces]
       ++ lit "return" ++ [mkTerm Space OneOrMore false; group_letters]
       ++ lit "." ++ [group_letters])
    ("(" :: w2 ++ (cp :: lp) ++ w3 ++ ")" :: w4 ++ "{" :: w5
         ++ list_ascii_of_string "return" ++ (c6 :: l6) ++ (cq :: lq)
         ++ "." :: (cf :: lf) ++ rest)%char
  = Some [string_of_list_ascii (cp :: lp); string_of_list_ascii (cq :: lq);
          string_of_list_ascii (cf :: lf)].
Proof.
  intros Hw2 Hw3 Hw4 Hw5 Hw6 Hp Hq Hf Hrest.
  assert (Hcp : is_letter cp = true)
    by (cbn in Hp; by apply andb_true_iff in Hp as [? _]).
  assert (Hcq : is_letter cq = true)
    by (cbn in Hq; by apply andb_true_iff in Hq as [? _]).
  pose proof (letter_not_space _ Hcp) as Hspace.
  pose proof (letter_not_space _ Hcq) as Hspaceq.
  step_lit "("%string. cbn [app].
  step_star w2 (cp :: lp ++ w3 ++ ")" :: w4 ++ "{" :: w5
                   ++ list_ascii_of_string "return" ++ c6 :: l6 ++ cq :: lq
                   ++ "." :: cf :: lf ++ rest)%char;
    [done|stops_by Hspace|].
  step_plus cp lp (w3 ++ ")" :: w4 ++ "{" :: w5
                      ++ list_ascii_of_string "return" ++ c6 :: l6 ++ cq :: lq
                      ++ "." :: cf :: lf ++ rest)%char;
    [done|by apply stops_letter_blank|].
  step_star w3 (")" :: w4 ++ "{" :: w5
                    ++ list_ascii_of_string "return" ++ c6 :: l6 ++ cq :: lq
                    ++ "." :: cf :: lf ++ rest)%char;
    [done|done|].
  step_lit ")"%string. cbn [app].
  step_star w4 ("{" :: w5
                    ++ list_ascii_of_string "return" ++ c6 :: l6 ++ cq :: lq
                    ++ "." :: cf :: lf ++ rest)%char;
    [done|done|].
  step_lit "{"%string. cbn [app].
  step_star w5 (list_ascii_of_string "return" ++ c6 :: l6 ++ cq :: lq
                    ++ "." :: cf :: lf ++ rest)%char;
    [done|done|].
  step_lit "return"%string. cbn [app].
  step_plus c6 l6 (cq :: lq ++ "." :: cf :: lf ++ rest)%char;
    [done|stops_by Hspaceq|].
  step_plus cq lq ("." :: cf :: lf ++ rest)%char; [done|done|].
  step_lit "."%string. cbn [app].
  step_plus cf lf rest; [done|done|].
  done.
Qed.

(** A function getter, named or not. *)
Lemma matchFunction_function name w0 w1 w2 w3 w4 w5 c6 l6 cp lp cq lq cf lf rest :
  forallb is_letter name = true ->
  forallb is_space w0 = true -> forallb is_space w1 = true ->
  forallb is_space w2 = true -> forallb is_space w3 = true ->
  forallb is_space w4 = true -> forallb is_space w5 = true ->
  forallb is_space (c6 :: l6) = true ->
  forallb is_letter (cp :: lp) = true ->
  forallb is_letter (cq :: lq) = true ->
  forallb is_letter (cf :: lf) = true ->
  stops Letter rest = true ->
  matchHere matchFunction
    (list_ascii_of_string "function" ++ w0 ++ name ++ w1
       ++ "(" :: w2 ++ (cp :: lp) ++ w3 ++ ")" :: w4 ++ "{" :: w5
       ++ list_ascii_of_string "return" ++ (c6 :: l6) ++ (cq :: lq)
       ++ "." :: (cf :: lf) ++ rest)%char
  = Some [string_of_list_ascii (cp :: lp); string_of_list_ascii (cq :: lq);
          string_of_list_ascii (cf :: lf)].
Proof.
  intros Hname Hw0 Hw1 Hw2 Hw3 Hw4 Hw5 Hw6 Hp Hq Hf Hrest.
  pose proof (matchHere_function_body w2 w3 w4 w5 c6 l6 cp lp cq lq cf lf rest
                Hw2 Hw3 Hw4 Hw5 Hw6 Hp Hq Hf Hrest) as Hbody.
  unfold matchFunction. step_lit "function"%string. cbn [app].
  destruct name as [|cn ln].
  - cbn [app]. rewrite app_assoc.
    eapply (matchHere_star _ _ (w0 ++ w1)); [reflexivity|reflexivity| | |].
    { rewrite forallb_app. apply andb_true_iff. split; [exact Hw0|exact Hw1]. }
    { done. }
    eapply (matchHere_star _ _ []); [reflexivity|reflexivity|done|done|].
    eapply (matchHere_star _ _ []); [reflexivity|reflexivity|done|done|].
    exact Hbody.
  - assert (Hcn : is_letter cn = true)
      by (cbn in Hname; by apply andb_true_iff in Hname as [? _]).
    pose proof (letter_not_space _ Hcn) as Hspace.
    eapply (matchHere_star _ _ w0); [reflexivity|reflexivity|done| |].
    { cbn. stops_by Hspace. }
    eapply (matchHere_star _ _ (cn :: ln)); [reflexivity|reflexivity|done| |].
    { by apply stops_letter_blank. }
    eapply (matchHere_star _ _ w1); [reflexivity|reflexivity|done|done|].
    exact Hbody.
Qed.

Lemma no_brace_in_blank w :
  forallb is_space w = true ->
  Forall (fun c => in_set (Lit "{"%char) c = false) w.
Proof.
  intros Hw. apply Forall_forall. intros c Hc. apply space_not_brace.
  rewrite forallb_forall in Hw. by apply Hw, list_elem_of_In.
Qed.

Lemma no_brace_in_letters w :
  forallb is_letter w = true ->
  Forall (fun c => in_set (Lit "{"%char) c = false) w.
Proof.
  intros Hw. apply Forall_forall. intros c Hc. apply letter_not_brace.
  rewrite forallb_forall in Hw. by apply Hw, list_elem_of_In.
Qed.

(** What the two patterns read in a getter of either shape. *)
Lemma exec_arrowGetter paren w1 w2 w3 w4 p f :
  blank w1 = true -> blank w2 = true -> blank w3 = true -> blank w4 = true ->
  letters p = true -> letters f = true ->
  exec matchFunction (arrowGetter paren w1 w2 w3 w4 p f) = None /\
  exec matchLambda (arrowGetter paren w1 w2 w3 w4 p f) = Some [p; p; f].
Proof.
  unfold blank. intros Hw1 Hw2 Hw3 Hw4.
  intros (cp & lp & Hp & Hlp)%letters_inv (cf & lf & Hf & Hlf)%letters_inv.
  assert (Hnames : [string_of_list_ascii (cp :: lp); string_of_list_ascii (cp :: lp);
                    string_of_list_ascii (cf :: lf)] = [p; p; f])
    by (by rewrite <-Hp, <-Hf, !string_of_list_ascii_of_string).
  pose proof (no_brace_in_letters _ Hlp) as [Hbcp Hblp]%Forall_cons.
  pose proof (no_brace_in_letters _ Hlf) as [Hbcf Hblf]%Forall_cons.
  destruct paren.
  - assert (Hsrc : list_ascii_of_string (arrowGetter true w1 w2 w3 w4 p f)
                   = ("(" :: list_ascii_of_string w1 ++ (cp :: lp)
                          ++ list_ascii_of_string w2 ++ ")" :: list_ascii_of_string w3
                          ++ "=" :: ">" :: list_ascii_of_string w4 ++ (cp :: lp)
                          ++ "." :: cf :: lf)%char).
    { unfold arrowGetter. rewrite !list_ascii_of_string_app, Hp, Hf.
      by cbn [list_ascii_of_string app]. }
    split.
    + apply (exec_missing (Lit "{"%char)).
      * unfold matchFunction. do 6 (apply Exists_app; right).
        apply Exists_app. left. by constructor.
      * rewrite Hsrc.
        repeat first [assumption | apply Forall_cons_2 | apply Forall_app_2
                     | by apply no_brace_in_blank | done].
    + apply exec_matchHere. rewrite Hsrc, <-Hnames.
      by apply matchLambda_paren.
  - assert (Hsrc : list_ascii_of_string (arrowGetter false w1 w2 w3 w4 p f)
                   = ((cp :: lp) ++ list_ascii_of_string w3
                        ++ "=" :: ">" :: list_ascii_of_string w4 ++ (cp :: lp)
                        ++ "." :: cf :: lf)%char).
    { unfold arrowGetter. rewrite !list_ascii_of_string_app, Hp, Hf.
      by cbn [list_ascii_of_string app]. }
    split.
    + apply (exec_missing (Lit "{"%char)).
      * unfold matchFunction. do 6 (apply Exists_app; right).
        apply Exists_app. left. by constructor.
      * rewrite Hsrc.
        repeat first [assumption | apply Forall_cons_2 | apply Forall_app_2
                     | by apply no_brace_in_blank | done].
    + apply exec_matchHere. rewrite Hsrc, <-Hnames.
      by apply matchLambda_bare.
Qed.

Lemma closing_stops rest :
  closing rest = true -> stops Letter (list_ascii_of_string rest) = true.
Proof.
  unfold closing. destruct (list_ascii_of_string rest) as [|c cs]; [done|].
  cbn. intros Hc. apply andb_true_iff in Hc as [Hc _].
  by rewrite (closing_not_letter c).
Qed.

Lemma exec_functionGetter name w0 w1 w2 w3 w4 w5 w6 p f rest :
  forallb is_letter (list_ascii_of_string name) = true ->
  blank w0 = true -> blank w1 = true -> blank w2 = true ->
  blank w3 = true -> blank w4 = true -> blank w5 = true ->
  blank w6 = true -> w6 <> ""%string ->
  closing rest = true ->
  letters p = true -> letters f = true ->
  exec matchFunction (functionGetter name w0 w1 w2 w3 w4 w5 w6 p f rest)
  = Some [p; p; f].
Proof.
  unfold blank. intros Hname Hw0 Hw1 Hw2 Hw3 Hw4 Hw5 Hw6 Hne Hrest.
  intros (cp & lp & Hp & Hlp)%letters_inv (cf & lf & Hf & Hlf)%letters_inv.
  assert (Hnames : [string_of_list_ascii (cp :: lp); string_of_list_ascii (cp :: lp);
                    string_of_list_ascii (cf :: lf)] = [p; p; f])
    by (by rewrite <-Hp, <-Hf, !string_of_list_ascii_of_string).
  destruct w6 as [|c6 l6]; [done|]. cbn [list_ascii_of_string] in Hw6.
  apply exec_matchHere. unfold functionGetter.
  rewrite !list_ascii_of_string_app, Hp, Hf, <-Hnames.
  apply (matchFunction_function (list_ascii_of_string name)
           (list_ascii_of_string w0) (list_ascii_of_string w1)
           (list_ascii_of_string w2) (list_ascii_of_string w3)
           (list_ascii_of_string w4) (list_ascii_of_string w5)
           c6 (list_ascii_of_string l6)); try done.
  by apply closing_stops.
Qed.

Lemma exec_getterOf p f src :
  letters p = true -> letters f = true ->
  getterOf p f src ->
  match exec matchFunction src with
  | Some m => Some m
  | None => exec matchLambda src
  end = Some [p; p; f].
Proof.
  intros Hp Hf [paren w1 w2 w3 w4 H1 H2 H3 H4
               |name w0 w1 w2 w3 w4 w5 w6 rest Hn H0 H1 H2 H3 H4 H5 H6 Hne Hr].
  - destruct (exec_arrowGetter paren w1 w2 w3 w4 p f) as [-> ->]; done.
  - by rewrite exec_functionGetter.
Qed.

(** A name made of letters is not [__proto__]. *)
Lemma letters_not_proto name :
  letters name = true -> name ≠ "__proto__"%string.
Proof. intros Hname ->. vm_compute in Hname. discriminate. Qed.

End RegexProperties.

(** ** Synthesis of the setter *)

Section EnsureReducerProperties.
Context {F : Type} `{!FieldSetter F}.
Implicit Types (context src p f : string) (m : list string).

Lemma ensureReducer_explicit context src (set : F) :
  ensureReducer context src (Some set) = Ok set.
Proof. done. Qed.

Lemma ensureReducer_function context src p f :
  exec matchFunction src = Some [p; p; f] ->
  ensureReducer (F:=F) context src None = Ok (field_setter f).
Proof.
  intros Hm. unfold ensureReducer. rewrite Hm. cbn [nth].
  by rewrite String.eqb_refl.
Qed.

Lemma ensureReducer_lambda context src p f :
  exec matchFunction src = None ->
  exec matchLambda src = Some [p; p; f] ->
  ensureReducer (F:=F) context src None = Ok (field_setter f).
Proof.
  intros Hf Hl. unfold ensureReducer. rewrite Hf, Hl. cbn [nth].
  by rewrite String.eqb_refl.
Qed.

(** No match: the configuration error. *)
Lemma ensureReducer_unmatched context src :
  exec matchFunction src = None ->
  exec matchLambda src = None ->
  ensureReducer (F:=F) context src None
  = Throw ("Cannot generate reducer for " ++ context ++ " "
           ++ "- too complex to parse, needs explicit reduce")%string.
Proof. intros Hf Hl. unfold ensureReducer. by rewrite Hf, Hl. Qed.

(** A match whose parameter and object names differ: the other error. *)
Lemma ensureReducer_inconsistent context src m :
  match exec matchFunction src with
  | Some m => Some m
  | None => exec matchLambda src
  end = Some m ->
  nth 0 m ""%string ≠ nth 1 m ""%string ->
  ensureReducer (F:=F) context src None
  = Throw ("Cannot generate reducer for " ++ context ++ " "
           ++ "- inconsistent parameter usage: "
           ++ nth 0 m "" ++ ", " ++ nth 1 m "")%string.
Proof.
  intros Hm Hne. unfold ensureReducer. rewrite Hm.
  apply String.eqb_neq in Hne. by rewrite Hne.
Qed.

(** A getter of either shape over names made of letters gets the setter of
    the property it reads. *)
Lemma ensureReducer_getter context src p f :
  letters p = true -> letters f = true ->
  getterOf p f src ->
  ensureReducer (F:=F) context src None = Ok (field_setter f).
Proof.
  intros Hp Hf Hsrc. unfold ensureReducer.
  rewrite (exec_getterOf p f src Hp Hf Hsrc). cbn [nth].
  by rewrite String.eqb_refl.
Qed.
End EnsureReducerProperties.

Section SynthesizedSetter.
Context {V : Type}.

Lemma ensureReducer_two_level context :
  Forall (fun src =>
            ensureReducer (F := obj V -> V -> obj V) context src None
            = Ok (field_setter "a"))
         ["s => s.a.b"; "function (s) { return s.a.b; }"]%string.
Proof.
  constructor; [|constructor; [|constructor]].
  - apply (ensureReducer_lambda _ _ "s"); by vm_compute.
  - apply (ensureReducer_function _ _ "s"); by vm_compute.
Qed.

(** C7, the code at the claim's input.  With the getter [s => s.a.b], in
    either shape, and no setter, constructing a collection or a reference
    throws nothing: both patterns are satisfied by the prefix of the source
    that ends at the first property, so [ensureReducer] returns the setter
    of the property [a], and every reduction overwrites [a] in the owner
    (whose own property [__proto__], if it has one, is not copied by
    [amend]). *)
Theorem two_level_getter_accepted
        {K I A} (ty : string) (g : obj V -> V)
        (reducer : MinimalReducer I A) (operations : CollectionOperations V K I)
        (itemReducer : MinimalReducer V A) :
  Forall (fun src =>
    (exists def,
        collection ty reducer operations (mkGetter g src) None = Ok def /\
        forall state p, exists c,
          c_reduce def state p = <["a" := c]> (delete "__proto__" state)) /\
    (exists def,
        reference ty itemReducer (mkGetter g src) None = Ok def /\
        forall state a, exists i,
          ref_reduce def state a = <["a" := i]> (delete "__proto__" state)))
    ["s => s.a.b"; "function (s) { return s.a.b; }"]%string.
Proof.
  pose proof (ensureReducer_two_level ("collection(" ++ ty ++ ")")) as Hc.
  pose proof (ensureReducer_two_level ("reference(" ++ ty ++ ")")) as Hr.
  apply Forall_forall. intros src Hsrc.
  rewrite Forall_forall in Hc, Hr.
  specialize (Hc src Hsrc). specialize (Hr src Hsrc). split.
  - eexists. unfold collection. cbn [toString]. rewrite Hc. split; [done|].
    intros state p. eexists. cbn [c_reduce]. unfold reduce.
    by apply field_setter_insert.
  - eexists. unfold reference. cbn [toString]. rewrite Hr. split; [done|].
    intros state a. eexists. cbn [ref_reduce]. unfold reference_reduce.
    by apply field_setter_insert.
Qed.

End SynthesizedSetter.


(** C8, the code at the failing input.  For the getter [s => s.x1], whose
    property name has a digit, the patterns read the letters [x] as the
    name of the property, so [ensureReducer] returns the setter of the
    property [x]: applied to [(state, value)] it writes [value] to [x].
    Applied to [({x1: 0}, 5)] it returns [{x1: 0, x: 5}]: the property
    [x1] that the getter reads is unchanged, and another property is
    added. *)
Theorem synthesized_setter_cuts_property_name (context : string) :
  exists set : obj Z -> Z -> obj Z,
    ensureReducer context "s => s.x1" None = Ok set /\
    (forall state value,
        set state value = <["x" := value]> (delete "__proto__" state)) /\
    set {[ "x1" := 0%Z ]} 5%Z = {[ "x1" := 0%Z; "x" := 5%Z ]} /\
    set {[ "x1" := 0%Z ]} 5%Z !! "x1" = Some 0%Z.
Proof.
  exists (field_setter "x").
  split; [apply (ensureReducer_lambda _ _ "s"); by vm_compute|].
  assert (Hset : forall (state : obj Z) value,
             field_setter "x" state value
             = <["x" := value]> (delete "__proto__" state))
    by (intros state value; by apply field_setter_insert).
  split; [exact Hset|]. rewrite Hset.
  rewrite delete_id by done. split.
  - rewrite <-!insert_empty. by apply insert_insert_ne.
  - rewrite lookup_insert_ne by done. apply lookup_singleton_eq.
Qed.

(** ** The collection combinator *)

Section CollectionProperties.
Context {S C K I A : Type} `{!FieldSetter (S -> C -> S)}.
Variable ty : string.
Variable reducer : MinimalReducer I A.
Variable operations : CollectionOperations C K I.
Variable get : Getter S C.
Variable set : S -> C -> S.

Lemma collection_explicit :
  collection ty reducer operations get (Some set)
  = Ok (mkCollection ty (reduce reducer operations get set)
          (update ty) (add ty) (remove ty)).
Proof. done. Qed.

(** C1.  The [reduce] of a collection built with an explicit [set], on an
    owner state and a payload [{key, update, remove}]: with [remove] true
    it commits [operations.remove] of the key, whatever [update] is;
    otherwise with an [update] it commits [operations.set] of the inner
    reducer's result on the item that [operations.get] returns for the key
    (the empty item for an absent key); otherwise it commits
    [operations.set] of that item itself, which for an absent key is the
    empty item.  Every branch commits through [set]. *)
Theorem collection_reduce_priority def state key upd rm :
  collection ty reducer operations get (Some set) = Ok def ->
  let c := call get state in
  let e := r_empty reducer in
  let item := op_get operations c key e in
  c_reduce def state (mkUpdate key upd (Some true))
  = set state (op_remove operations c key e) /\
  (rm ≠ Some true ->
   (forall u, c_reduce def state (mkUpdate key (Some u) rm)
              = set state (op_set operations c key (r_reduce reducer item u))) /\
   c_reduce def state (mkUpdate key None rm)
   = set state (op_set operations c key item) /\
   (item = e ->
    c_reduce def state (mkUpdate key None rm)
    = set state (op_set operations c key e))).
Proof.
  rewrite collection_explicit. intros [= <-] c e item. split; [done|].
  intros Hrm. cbn [c_reduce]. unfold reduce. cbn [u_key u_update u_remove].
  assert (Hfalse : truthy rm = false) by by destruct rm as [[]|].
  rewrite Hfalse. fold c e item. split; [done|]. split; [done|].
  by intros ->.
Qed.

(** An update at a key that reads as the empty item commits the inner
    reducer's result on the empty item. *)
Lemma update_of_absent def state k a :
  collection ty reducer operations get (Some set) = Ok def ->
  op_get operations (call get state) k (r_empty reducer) = r_empty reducer ->
  c_reduce def state (payload (c_update def k a))
  = set state (op_set operations (call get state) k
                      (r_reduce reducer (r_empty reducer) a)).
Proof.
  rewrite collection_explicit. intros [= <-] Habsent.
  cbn. unfold reduce. cbn. by rewrite Habsent.
Qed.

(** Laws of well-behaved accessors and operations. *)
Hypothesis get_set : forall s c, call get (set s c) = c.

(** Removing twice commits the same collection as removing once, for
    operations whose [remove] is idempotent. *)
Lemma remove_twice_collection def state key :
  (forall c e, op_remove operations (op_remove operations c key e) key e
               = op_remove operations c key e) ->
  collection ty reducer operations get (Some set) = Ok def ->
  let once := c_reduce def state (payload (c_remove def key)) in
  let twice := c_reduce def once (payload (c_remove def key)) in
  call get twice = call get once.
Proof.
  intros Hidem. rewrite collection_explicit. intros [= <-]. cbn.
  unfold reduce. cbn. by rewrite !get_set, Hidem.
Qed.

Hypothesis set_set : forall s c c', set (set s c) c' = set s c'.

(** Reducing [add(k)] and then [update(k, a)] is reducing [update(k, a)],
    when the empty item set at an absent [k] is read back and a second
    [set] at [k] overrides the first. *)
Lemma update_after_add def state k a :
  let c := call get state in
  let e := r_empty reducer in
  op_get operations (op_set operations c k e) k e = e ->
  (forall w, op_set operations (op_set operations c k e) k w
             = op_set operations c k w) ->
  collection ty reducer operations get (Some set) = Ok def ->
  op_get operations c k e = e ->
  c_reduce def state (payload (c_update def k a))
  = c_reduce def (c_reduce def state (payload (c_add def k)))
             (payload (c_update def k a)).
Proof.
  intros c e Hget Hset. rewrite collection_explicit. intros [= <-] Habsent.
  cbn. unfold reduce. cbn. fold c e.
  by rewrite !get_set, set_set, Habsent, Hget, Hset.
Qed.
End CollectionProperties.

(** ** The provided operations *)

Section ProvidedOperations.
Context {I : Type}.

Lemma builtIn_get_set {K} `{!PropertyKey K} (c : obj I) (k : K) v e :
  property_key k ≠ "__proto__"%string ->
  op_get builtInOperations (op_set builtInOperations c k v) k e = v.
Proof.
  intros Hk. by rewrite builtIn_set_eq, builtIn_get_eq, lookup_insert_eq.
Qed.

Lemma builtIn_set_set {K} `{!PropertyKey K} (c : obj I) (k : K) v w :
  property_key k ≠ "__proto__"%string ->
  op_set builtInOperations (op_set builtInOperations c k v) k w
  = op_set builtInOperations c k w.
Proof.
  intros Hk. rewrite !builtIn_set_eq by done.
  rewrite delete_insert_ne by done.
  by rewrite delete_delete_eq, insert_insert_eq.
Qed.

Lemma builtIn_remove_idempotent {K} `{!PropertyKey K} (c : obj I) (k : K) e :
  op_remove builtInOperations (op_remove builtInOperations c k e) k e
  = op_remove builtInOperations c k e.
Proof.
  rewrite !builtIn_remove_eq.
  rewrite (delete_delete _ "__proto__"%string (property_key k)).
  by rewrite delete_delete_eq, (delete_delete_eq _ "__proto__"%string).
Qed.

Lemma immutableMap_get_set `{Countable K} (c : gmap K I) k v e :
  op_get immutableMapOperations (op_set immutableMapOperations c k v) k e = v.
Proof. cbn. by rewrite lookup_insert_eq. Qed.

Lemma immutableMap_set_set `{Countable K} (c : gmap K I) k v w :
  op_set immutableMapOperations (op_set immutableMapOperations c k v) k w
  = op_set immutableMapOperations c k w.
Proof. cbn. apply insert_insert_eq. Qed.

Lemma immutableMap_remove_idempotent `{Countable K} (c : gmap K I) k e :
  op_remove immutableMapOperations (op_remove immutableMapOperations c k e) k e
  = op_remove immutableMapOperations c k e.
Proof. cbn. apply delete_delete_eq. Qed.

Lemma array_remove_idempotent `{!Undefinable I} (c : array I) k e :
  op_remove arrayOperations (op_remove arrayOperations c k e) k e
  = op_remove arrayOperations c k e.
Proof. cbn. apply set_index_idempotent. Qed.

Lemma array_set_eq `{!Undefinable I} (c : array I) k v :
  k <= length c ->
  op_set arrayOperations c k v
  = if decide (k < length c) then <[k := Some v]> c else c ++ [Some v].
Proof.
  intros Hk. cbn [op_set arrayOperations]. unfold array_slice0. case_decide.
  - by apply splice_in_range.
  - apply splice_beyond. lia.
Qed.

(** Up to the end of the array, [set] writes the slot [k]. *)
Lemma array_get_set `{!Undefinable I} (c : array I) k v e :
  k <= length c ->
  op_get arrayOperations (op_set arrayOperations c k v) k e
  = if is_undefined v then e else v.
Proof.
  intros Hk. rewrite array_set_eq by done. cbn [op_get arrayOperations].
  case_decide.
  - by rewrite list_lookup_insert_eq by done.
  - replace k with (length c) by lia. rewrite lookup_app_r by done.
    by rewrite Nat.sub_diag.
Qed.

Lemma array_get_set_empty `{!Undefinable I} (c : array I) k e :
  k <= length c ->
  op_get arrayOperations (op_set arrayOperations c k e) k e = e.
Proof.
  intros Hk. rewrite array_get_set by done. by destruct (is_undefined e).
Qed.

Lemma array_set_set `{!Undefinable I} (c : array I) k v w :
  k <= length c ->
  op_set arrayOperations (op_set arrayOperations c k v) k w
  = op_set arrayOperations c k w.
Proof.
  intros Hk. rewrite (array_set_eq c k v), (array_set_eq c k w) by done.
  case_decide.
  - rewrite array_set_eq by (rewrite length_insert; lia).
    rewrite decide_True by (rewrite length_insert; lia).
    apply list_insert_insert_eq.
  - rewrite array_set_eq by (rewrite length_app; cbn; lia).
    rewrite decide_True by (rewrite length_app; cbn; lia).
    replace k with (length c + 0) by lia. by rewrite insert_app_r.
Qed.
End ProvidedOperations.

(** X21.  Materialize-on-write where the operations store at the key.  Let
    the owner's accessors satisfy [get(set(s, c)) = c] and
    [set(set(s, c), c') = set(s, c')], and let [k] be a key that
    [operations.get] resolves to the empty item.  Then reducing
    [update(k, a)] commits the inner reducer's result on the empty item at
    [k], which is also what reducing [add(k)] and then [update(k, a)]
    gives, and the item read back at [k] is that result
    - for any operations that, on the collection at hand, read back the
      empty item set at [k] and let a second [set] at [k] override it
      (without the reading back);
    - for the plain-object operations at a key whose name is not
      [__proto__], and for the Immutable map operations;
    - for the array operations when [k] is at most the array's length
      (a result that is [undefined] reads back as the empty item). *)
Theorem update_materializes_absent_key {K K' I A : Type}
        `{!PropertyKey K} `{Countable K'} `{!Undefinable I} :
  (forall (S C Key : Type) (FS : FieldSetter (S -> C -> S)) ty
          (reducer : MinimalReducer I A) (operations : CollectionOperations C Key I)
          (get : Getter S C) set def state k a,
      (forall s c, call get (set s c) = c) ->
      (forall s c c', set (set s c) c' = set s c') ->
      op_get operations
             (op_set operations (call get state) k (r_empty reducer))
             k (r_empty reducer) = r_empty reducer ->
      (forall w, op_set operations
                   (op_set operations (call get state) k (r_empty reducer)) k w
                 = op_set operations (call get state) k w) ->
      collection ty reducer operations get (Some set) = Ok def ->
      op_get operations (call get state) k (r_empty reducer) = r_empty reducer ->
      let once := c_reduce def state (payload (c_update def k a)) in
      once = set state (op_set operations (call get state) k
                               (r_reduce reducer (r_empty reducer) a)) /\
      once = c_reduce def (c_reduce def state (payload (c_add def k)))
                      (payload (c_update def k a))) /\
  (forall S (FS : FieldSetter (S -> obj I -> S)) ty (reducer : MinimalReducer I A)
          (get : Getter S (obj I)) set def state (k : K) a,
      (forall s c, call get (set s c) = c) ->
      (forall s c c', set (set s c) c' = set s c') ->
      property_key k ≠ "__proto__"%string ->
      collection ty reducer builtInOperations get (Some set) = Ok def ->
      op_get builtInOperations (call get state) k (r_empty reducer)
      = r_empty reducer ->
      let once := c_reduce def state (payload (c_update def k a)) in
      once = set state (op_set builtInOperations (call get state) k
                               (r_reduce reducer (r_empty reducer) a)) /\
      once = c_reduce def (c_reduce def state (payload (c_add def k)))
                      (payload (c_update def k a)) /\
      op_get builtInOperations (call get once) k (r_empty reducer)
      = r_reduce reducer (r_empty reducer) a) /\
  (forall S (FS : FieldSetter (S -> gmap K' I -> S)) ty (reducer : MinimalReducer I A)
          (get : Getter S (gmap K' I)) set def state (k : K') a,
      (forall s c, call get (set s c) = c) ->
      (forall s c c', set (set s c) c' = set s c') ->
      collection ty reducer immutableMapOperations get (Some set) = Ok def ->
      op_get immutableMapOperations (call get state) k (r_empty reducer)
      = r_empty reducer ->
      let once := c_reduce def state (payload (c_update def k a)) in
      once = set state (op_set immutableMapOperations (call get state) k
                               (r_reduce reducer (r_empty reducer) a)) /\
      once = c_reduce def (c_reduce def state (payload (c_add def k)))
                      (payload (c_update def k a)) /\
      op_get immutableMapOperations (call get once) k (r_empty reducer)
      = r_reduce reducer (r_empty reducer) a) /\
  (forall S (FS : FieldSetter (S -> array I -> S)) ty (reducer : MinimalReducer I A)
          (get : Getter S (array I)) set def state (k : nat) a,
      (forall s c, call get (set s c) = c) ->
      (forall s c c', set (set s c) c' = set s c') ->
      k <= length (call get state) ->
      collection ty reducer arrayOperations get (Some set) = Ok def ->
      op_get arrayOperations (call get state) k (r_empty reducer)
      = r_empty reducer ->
      let once := c_reduce def state (payload (c_update def k a)) in
      once = set state (op_set arrayOperations (call get state) k
                               (r_reduce reducer (r_empty reducer) a)) /\
      once = c_reduce def (c_reduce def state (payload (c_add def k)))
                      (payload (c_update def k a)) /\
      op_get arrayOperations (call get once) k (r_empty reducer)
      = if is_undefined (r_reduce reducer (r_empty reducer) a)
        then r_empty reducer
        else r_reduce reducer (r_empty reducer) a).
Proof.
  split; [|split; [|split]].
  - intros S C Key FS ty reducer operations get set def state k a
           Hget Hset Hread Hover Hdef Habsent once. subst once. split.
    + by apply (update_of_absent ty reducer operations get set).
    + by apply (update_after_add ty reducer operations get set Hget Hset).
  - intros S FS ty reducer get set def state k a Hget Hset Hk Hdef Habsent once.
    subst once.
    rewrite (update_of_absent ty reducer builtInOperations get set def)
      by done.
    split; [done|]. split.
    + rewrite <-(update_of_absent ty reducer builtInOperations get set def)
        by done.
      apply (update_after_add ty reducer builtInOperations get set Hget Hset);
        [by apply builtIn_get_set|intros w; by apply builtIn_set_set|done..].
    + rewrite Hget. by apply builtIn_get_set.
  - intros S FS ty reducer get set def state k a Hget Hset Hdef Habsent once.
    subst once.
    rewrite (update_of_absent ty reducer immutableMapOperations get set def)
      by done.
    split; [done|]. split.
    + rewrite <-(update_of_absent ty reducer immutableMapOperations get set def)
        by done.
      apply (update_after_add ty reducer immutableMapOperations get set Hget Hset);
        [apply immutableMap_get_set|intros w; apply immutableMap_set_set|done..].
    + rewrite Hget. apply immutableMap_get_set.
  - intros S FS ty reducer get set def state k a Hget Hset Hk Hdef Habsent once.
    subst once.
    rewrite (update_of_absent ty reducer arrayOperations get set def) by done.
    split; [done|]. split.
    + rewrite <-(update_of_absent ty reducer arrayOperations get set def)
        by done.
      apply (update_after_add ty reducer arrayOperations get set Hget Hset);
        [by apply array_get_set_empty|intros w; by apply array_set_set|done..].
    + rewrite Hget. by apply array_get_set.
Qed.

(** C9.  For the plain-object operations, the Immutable map operations and
    the array operations, and for an owner whose [get] reads back what
    [set] commits: reducing [remove(k)] twice leaves the same collection
    in the owner as reducing it once.  On the heap, [remove] returns
    normally on every plain object and on every array, whether or not the
    key is present. *)
Theorem remove_twice_is_remove_once {K K' I A : Type}
        `{!PropertyKey K} `{Countable K'} `{!Undefinable I} :
  (forall S (FS : FieldSetter (S -> obj I -> S)) ty (reducer : MinimalReducer I A)
          (get : Getter S (obj I)) set def state (key : K),
      (forall s c, call get (set s c) = c) ->
      collection ty reducer builtInOperations get (Some set) = Ok def ->
      call get (c_reduce def (c_reduce def state (payload (c_remove def key)))
                         (payload (c_remove def key)))
      = call get (c_reduce def state (payload (c_remove def key)))) /\
  (forall S (FS : FieldSetter (S -> gmap K' I -> S)) ty (reducer : MinimalReducer I A)
          (get : Getter S (gmap K' I)) set def state (key : K'),
      (forall s c, call get (set s c) = c) ->
      collection ty reducer immutableMapOperations get (Some set) = Ok def ->
      call get (c_reduce def (c_reduce def state (payload (c_remove def key)))
                         (payload (c_remove def key)))
      = call get (c_reduce def state (payload (c_remove def key)))) /\
  (forall S (FS : FieldSetter (S -> array I -> S)) ty (reducer : MinimalReducer I A)
          (get : Getter S (array I)) set def state (key : nat),
      (forall s c, call get (set s c) = c) ->
      collection ty reducer arrayOperations get (Some set) = Ok def ->
      call get (c_reduce def (c_reduce def state (payload (c_remove def key)))
                         (payload (c_remove def key)))
      = call get (c_reduce def state (payload (c_remove def key)))) /\
  (forall (h : Mut.heap) l o (key : K),
      h !! l = Some (Mut.CObj o) ->
      is_Some (Mut.builtIn_remove (Mut.VRef l) (property_key key) h)) /\
  (forall (h : Mut.heap) l slots key e,
      h !! l = Some (Mut.CArr slots) ->
      is_Some (Mut.array_remove (Mut.VRef l) key e h)).
Proof.
  repeat split.
  - intros S FS ty reducer get set def state key Hget Hdef.
    apply (remove_twice_collection ty reducer builtInOperations get set Hget);
      [|done].
    intros c e. apply builtIn_remove_idempotent.
  - intros S FS ty reducer get set def state key Hget Hdef.
    apply (remove_twice_collection ty reducer immutableMapOperations get set Hget);
      [|done].
    intros c e. apply immutableMap_remove_idempotent.
  - intros S FS ty reducer get set def state key Hget Hdef.
    apply (remove_twice_collection ty reducer arrayOperations get set Hget);
      [|done].
    intros c e. apply array_remove_idempotent.
  - intros h l o key Hl.
    by rewrite (builtIn_remove_run h l o key (default Mut.VUndefined None) Hl).
  - intros h l slots key e Hl. by rewrite (array_remove_run h l slots key e Hl).
Qed.

(** C10, amended.  [remove(items, key, emptyItem)] of the array operations
    never shortens the array: it returns a copy in which the slot [key]
    holds [emptyItem] and every other slot of [items] is as it was; its
    length is that of [items] when [key] is an index of [items], and is
    [key + 1], with holes below [key], when [key] lies at or beyond the
    end.  On the heap the copy is a new array and every cell that existed
    before the call, [items] among them, is unchanged.  The [remove] of
    the map operations deletes the key. *)
Theorem array_remove_overwrites_slot {K K' I : Type}
        `{!PropertyKey K} `{Countable K'} `{!Undefinable I} :
  (forall (items : array I) (key : nat) (e : I),
      let items' := op_remove arrayOperations items key e in
      length items <= length items' /\
      length items' = length items `max` S key /\
      items' !! key = Some (Some e) /\
      (forall j, j ≠ key -> j < length items -> items' !! j = items !! j) /\
      (forall j, length items <= j < key -> items' !! j = Some None) /\
      (key < length items ->
       length items' = length items /\ items' = <[key := Some e]> items)) /\
  (forall (h : Mut.heap) l slots key e,
      h !! l = Some (Mut.CArr slots) ->
      exists h',
        Mut.array_remove (Mut.VRef l) key e h = Some (Mut.VRef (length h), h') /\
        h' !! length h = Some (Mut.CArr (op_remove arrayOperations slots key e)) /\
        forall l0, l0 < length h -> h' !! l0 = h !! l0) /\
  (forall (items : obj I) (key : K) e,
      op_remove builtInOperations items key e !! property_key key = None) /\
  (forall (items : gmap K' I) (key : K') e,
      op_remove immutableMapOperations items key e !! key = None).
Proof.
  split; [|split; [|split]].
  - intros items key e items'. subst items'.
    cbn [op_remove arrayOperations]. unfold array_slice0.
    pose proof (length_set_index items key e) as Hlen.
    repeat split.
    + lia.
    + done.
    + apply lookup_set_index_eq.
    + intros j Hne Hlt. by apply lookup_set_index_ne.
    + intros j Hj. by apply lookup_set_index_hole.
    + lia.
    + by apply set_index_in_range.
  - intros h l slots key e Hl. eexists. split; [by apply array_remove_run|].
    split.
    + by rewrite lookup_app_r, Nat.sub_diag.
    + intros l0 Hl0. by apply lookup_app_l.
  - intros items key e. rewrite builtIn_remove_eq. apply lookup_delete_eq.
  - intros items key e. cbn. apply lookup_delete_eq.
Qed.

(** C10 as stated fails beyond the end of the array: removing the key 2
    from an array of length 1 returns an array of length 3. *)
Lemma array_remove_beyond_end_grows :
  ~ (length (op_remove arrayOperations [Some 4%Z] 2 0%Z)
     = length ([Some 4%Z] : array Z)).
Proof. intros Hlen. vm_compute in Hlen. discriminate. Qed.

(** ** The properties on the test inputs *)

Lemma shelves_get_set s c : call shelvesGetter (setShelves s c) = c.
Proof. done. Qed.

Lemma shelves_set_set s c c' : setShelves (setShelves s c) c' = setShelves s c'.
Proof. done. Qed.

Lemma snapshot_cursor_dispatch_witness :
  dispatch (SnapshotCursor (Reducer_store counter) (Some 0%Z))
           (mkAction "INCR" 0%Z) (Some 7%Z)
  = (_ ← store_dispatch (Reducer_store counter) (mkAction "INCR" 0%Z);
     snapshot (Reducer_store counter)) (Some 7%Z).
Proof.
  apply (snapshot_cursor_dispatch (Reducer_store counter) (Some 0%Z) (Some 0%Z)
           (SnapshotCursor (Reducer_store counter) (Some 0%Z))).
  reflexivity.
Defined.

Lemma collection_reduce_priority_witness :
  c_reduce (mkCollection "SHELVES"
              (reduce priceReducer stringMapOperations shelvesGetter setShelves)
              (update "SHELVES") (add "SHELVES") (remove "SHELVES"))
           (mkShop {[ "a"%string := 1%Z ]})
           (mkUpdate "a"%string (Some (mkAction "SET_PRICE" 3%Z)) (Some true))
  = setShelves (mkShop {[ "a"%string := 1%Z ]})
      (op_remove stringMapOperations
         (call shelvesGetter (mkShop {[ "a"%string := 1%Z ]}))
         "a"%string (r_empty priceReducer)).
Proof.
  apply (collection_reduce_priority "SHELVES" priceReducer stringMapOperations
           shelvesGetter setShelves _
           (mkShop {[ "a"%string := 1%Z ]}) "a"%string
           (Some (mkAction "SET_PRICE" 3%Z)) None).
  reflexivity.
Defined.

Lemma update_materializes_absent_key_witness :
  reduce priceReducer stringMapOperations shelvesGetter setShelves
         (mkShop ∅)
         (payload (update "SHELVES" "a"%string (mkAction "SET_PRICE" 3%Z)))
  = reduce priceReducer stringMapOperations shelvesGetter setShelves
      (reduce priceReducer stringMapOperations shelvesGetter setShelves
              (mkShop ∅) (payload (add "SHELVES" "a"%string)))
      (payload (update "SHELVES" "a"%string (mkAction "SET_PRICE" 3%Z))).
Proof.
  destruct (update_materializes_absent_key (K:=string) (K':=string) (I:=Z)
              (A:=Action Z)) as (_ & Hobject & _).
  apply (Hobject Shop _ "SHELVES" priceReducer shelvesGetter setShelves
           (mkCollection "SHELVES"
              (reduce priceReducer stringMapOperations shelvesGetter setShelves)
              (update "SHELVES") (add "SHELVES") (remove "SHELVES"))
           (mkShop ∅) "a"%string (mkAction "SET_PRICE" 3%Z)).
  - exact shelves_get_set.
  - exact shelves_set_set.
  - discriminate.
  - reflexivity.
  - reflexivity.
Defined.

(** C6, the code at the failing input.  For the array operations and a key
    beyond the end of the array the two reductions differ: on the owner
    [{books: []}], where the key 1 reads as the empty item, [update(1, a)]
    commits [[3]] (the updated item appended at index 0), while [add(1)]
    followed by [update(1, a)] commits [[0, 3]] (the empty item appended,
    then the updated item appended).  In neither is the item stored at the
    key 1 it was addressed by: [set] of the array operations splices,
    where [remove] assigns [items[key]]. *)
Theorem update_beyond_end_of_array_differs :
  exists def,
    collection "BOOKS" priceReducer arrayOperations booksGetter (Some setBooks)
    = Ok def /\
    op_get arrayOperations (call booksGetter (mkStack [])) 1
           (r_empty priceReducer)
    = r_empty priceReducer /\
    c_reduce def (mkStack [])
             (payload (c_update def 1 (mkAction "SET_PRICE" 3%Z)))
    = mkStack [Some 3%Z] /\
    c_reduce def (c_reduce def (mkStack []) (payload (c_add def 1)))
             (payload (c_update def 1 (mkAction "SET_PRICE" 3%Z)))
    = mkStack [Some 0%Z; Some 3%Z] /\
    c_reduce def (mkStack [])
             (payload (c_update def 1 (mkAction "SET_PRICE" 3%Z)))
    ≠ c_reduce def (c_reduce def (mkStack []) (payload (c_add def 1)))
               (payload (c_update def 1 (mkAction "SET_PRICE" 3%Z))).
Proof.
  exists booksDef. split; [reflexivity|]. split; [reflexivity|].
  split; [reflexivity|]. split; [reflexivity|].
  intros Heq. apply (f_equal books) in Heq. discriminate Heq.
Qed.

Lemma remove_twice_is_remove_once_witness :
  call shelvesGetter
    (reduce priceReducer stringMapOperations shelvesGetter setShelves
       (reduce priceReducer stringMapOperations shelvesGetter setShelves
          (mkShop {[ "a"%string := 1%Z ]})
          (payload (remove "SHELVES" "a"%string)))
       (payload (remove "SHELVES" "a"%string)))
  = call shelvesGetter
      (reduce priceReducer stringMapOperations shelvesGetter setShelves
         (mkShop {[ "a"%string := 1%Z ]})
         (payload (remove "SHELVES" "a"%string))).
Proof.
  destruct (remove_twice_is_remove_once (K:=string) (K':=string) (I:=Z)
              (A:=Action Z)) as [Hobject _].
  apply (Hobject Shop _ "SHELVES" priceReducer shelvesGetter setShelves
           (mkCollection "SHELVES"
              (reduce priceReducer stringMapOperations shelvesGetter setShelves)
              (update "SHELVES") (add "SHELVES") (remove "SHELVES"))
           (mkShop {[ "a"%string := 1%Z ]}) "a"%string).
  - exact shelves_get_set.
  - reflexivity.
Defined.

Lemma array_remove_overwrites_slot_witness :
  op_remove arrayOperations [Some 4%Z; Some 5%Z] 0 0%Z
  = <[0 := Some 0%Z]> [Some 4%Z; Some 5%Z] /\
  exists h',
    Mut.array_remove (Mut.VRef 0) 0 Mut.VUndefined [Mut.CArr [Some (Mut.VNum 4)]]
    = Some (Mut.VRef 1, h') /\
    h' !! 0 = Some (Mut.CArr [Some (Mut.VNum 4)]).
Proof.
  destruct (array_remove_overwrites_slot (K:=string) (K':=string) (I:=Z))
    as (Harray & _).
  destruct (array_remove_overwrites_slot (K:=string) (K':=string) (I:=Mut.val))
    as (_ & Hheap & _).
  split.
  - apply (Harray [Some 4%Z; Some 5%Z] 0 0%Z). cbn. lia.
  - destruct (Hheap [Mut.CArr [Some (Mut.VNum 4)]] 0 [Some (Mut.VNum 4)] 0
                Mut.VUndefined eq_refl) as (h' & Hrun & _ & Hframe).
    exists h'. split; [exact Hrun|]. apply (Hframe 0). cbn. lia.
Defined.

(** The session on the shop: the added shelf is the empty item, the price
    set through the cursor is read back, and the removed shelf reads as the
    empty item again. *)
Example shop_session :
  fst <$> shopSession (mkShop ∅) = Some (0%Z, 399%Z, 0%Z).
Proof. vm_compute. reflexivity. Qed.

(** * Further properties of the code *)

(** ** [assign] and [amend] *)

(** X1.  [amend(o1, o2)] has the properties of both objects, those of [o2]
    winning, under every name but [__proto__]; a property of that name is
    not copied when at most one of the two owns one.  On the heap the
    result is a new object, and [o1], [o2] and every other cell are as they
    were (also when [o1] and [o2] are the same object). *)
Theorem amend_overrides_without_mutation {V : Type} :
  (forall (o1 o2 : obj V) key,
      key ≠ "__proto__"%string ->
      amend o1 o2 !! key
      = match o2 !! key with Some v => Some v | None => o1 !! key end) /\
  (forall (o1 o2 : obj V),
      o1 !! "__proto__"%string = None \/ o2 !! "__proto__"%string = None ->
      amend o1 o2 !! "__proto__"%string = None) /\
  (forall (h : Mut.heap) l1 l2 o1 o2,
      h !! l1 = Some (Mut.CObj o1) ->
      h !! l2 = Some (Mut.CObj o2) ->
      o1 !! "__proto__"%string = None \/ o2 !! "__proto__"%string = None ->
      exists h',
        Mut.amend (Mut.VRef l1) (Mut.VRef l2) h = Some (Mut.VRef (length h), h') /\
        h' !! length h = Some (Mut.CObj (amend o1 o2)) /\
        forall l0, l0 < length h -> h' !! l0 = h !! l0).
Proof.
  split; [|split].
  - intros o1 o2 key Hkey.
    rewrite amend_union, lookup_delete_ne, lookup_union by done.
    destruct (o2 !! key) as [v|], (o1 !! key) as [w|]; done.
  - intros o1 o2 _. rewrite amend_union. apply lookup_delete_eq.
  - intros h l1 l2 o1 o2 H1 H2 _. eexists. split; [by apply amend_run|]. split.
    + by rewrite lookup_app_r, Nat.sub_diag.
    + intros l0 Hl0. by apply lookup_app_l.
Qed.

Lemma amend_overrides_without_mutation_witness :
  exists h',
    Mut.amend (Mut.VRef 0) (Mut.VRef 1)
      [Mut.CObj {[ "title"%string := Mut.VStr "a" ]};
       Mut.CObj {[ "title"%string := Mut.VStr "b" ]}]
    = Some (Mut.VRef 2, h') /\
    h' !! 2 = Some (Mut.CObj (amend {[ "title"%string := Mut.VStr "a" ]}
                                    {[ "title"%string := Mut.VStr "b" ]})) /\
    forall l0, l0 < 2 ->
      h' !! l0 = [Mut.CObj {[ "title"%string := Mut.VStr "a" ]};
                  Mut.CObj {[ "title"%string := Mut.VStr "b" ]}] !! l0.
Proof.
  apply (proj2 (proj2 (amend_overrides_without_mutation (V:=Mut.val)))
           [Mut.CObj {[ "title"%string := Mut.VStr "a" ]};
            Mut.CObj {[ "title"%string := Mut.VStr "b" ]}] 0 1).
  - reflexivity.
  - reflexivity.
  - left. reflexivity.
Defined.

Lemma assign_snoc {V} (target : obj V) sources source :
  assign target (sources ++ [source])
  = copied (assign target sources) source ∪ assign target sources.
Proof. unfold assign. by rewrite foldl_app, <-assign_from_copied. Qed.

(** X2.  [assign(target, ...sources)] with a target that is none of the
    sources, and sources that own no [__proto__], updates the target in
    place and returns it: the target's cell ends with its own properties
    overridden by those of the sources, each source overriding the ones
    before it; no cell is added and every other cell, the sources among
    them, is as it was. *)
Theorem assign_updates_target_in_place :
  (forall (target : obj Mut.val), assign target [] = target) /\
  (forall (target : obj Mut.val) sources source key,
      key ≠ "__proto__"%string ->
      assign target (sources ++ [source]) !! key
      = match source !! key with
        | Some v => Some v
        | None => assign target sources !! key
        end) /\
  (forall (target : obj Mut.val) sources source,
      source !! "__proto__"%string = None ->
      assign target (sources ++ [source]) !! "__proto__"%string
      = assign target sources !! "__proto__"%string) /\
  (forall (h : Mut.heap) lt target (srcs : list (Mut.loc * obj Mut.val)),
      h !! lt = Some (Mut.CObj target) ->
      Forall (fun s => h !! s.1 = Some (Mut.CObj s.2) /\ lt ≠ s.1 /\
                       s.2 !! "__proto__"%string = None) srcs ->
      exists h',
        Mut.assign (Mut.VRef lt) (Mut.VRef <$> srcs.*1) h
        = Some (Mut.VRef lt, h') /\
        length h' = length h /\
        h' !! lt = Some (Mut.CObj (assign target srcs.*2)) /\
        forall l0, l0 ≠ lt -> h' !! l0 = h !! l0).
Proof.
  split; [done|]. split; [|split].
  - intros target sources source key Hkey.
    rewrite assign_snoc, lookup_union, copied_lookup_ne by done.
    destruct (source !! key) as [v|], (assign target sources !! key) as [w|];
      done.
  - intros target sources source Hsource.
    rewrite assign_snoc, copied_plain, lookup_union, Hsource by done.
    by destruct (assign target sources !! "__proto__"%string).
  - intros h lt target srcs Ht Hsrcs. eexists.
    split; [apply assign_run; [done|]|].
    { eapply Forall_impl; [exact Hsrcs|]. by intros s (? & ? & _). }
    split; [apply length_insert|]. split.
    + apply list_lookup_insert_eq. by apply lookup_lt_Some in Ht.
    + intros l0 Hl0. by apply list_lookup_insert_ne.
Qed.

Lemma assign_updates_target_in_place_witness :
  exists h',
    Mut.assign (Mut.VRef 0) [Mut.VRef 1]
      [Mut.CObj ∅; Mut.CObj {[ "n"%string := Mut.VNum 1 ]}]
    = Some (Mut.VRef 0, h') /\
    length h' = 2 /\
    h' !! 0 = Some (Mut.CObj (assign ∅ [ {[ "n"%string := Mut.VNum 1 ]} ])) /\
    forall l0, l0 ≠ 0 ->
      h' !! l0 = [Mut.CObj ∅; Mut.CObj {[ "n"%string := Mut.VNum 1 ]}] !! l0.
Proof.
  assert (Hsrcs : Forall (fun s : Mut.loc * obj Mut.val =>
                            [Mut.CObj ∅; Mut.CObj {[ "n"%string := Mut.VNum 1 ]}]
                              !! s.1 = Some (Mut.CObj s.2) /\ 0 ≠ s.1 /\
                            s.2 !! "__proto__"%string = None)
                         [(1, {[ "n"%string := Mut.VNum 1 ]})]).
  { constructor; [|constructor]. split; [reflexivity|]. split; [cbn; lia|].
    reflexivity. }
  exact (proj2 (proj2 (proj2 assign_updates_target_in_place))
           [Mut.CObj ∅; Mut.CObj {[ "n"%string := Mut.VNum 1 ]}] 0 ∅
           [(1, {[ "n"%string := Mut.VNum 1 ]})] eq_refl Hsrcs).
Defined.

(** ** Round trips of the container operations *)

(** The decimal notation of an integer does not start with an underscore. *)
Lemma pretty_N_go_head x s c s' :
  (forall s0, s ≠ String "_" s0) ->
  pretty.pretty_N_go x s = String c s' -> c ≠ "_"%char.
Proof.
  revert s c s'. induction (N.lt_wf_0 x) as [x _ IH]; intros s c s' Hs.
  destruct (decide (x = 0)%N) as [->|Hx].
  - rewrite pretty.pretty_N_go_0. intros -> ->. by apply (Hs s').
  - rewrite pretty.pretty_N_go_step by lia. apply IH.
    + apply N.div_lt; lia.
    + intros s0. unfold pretty.pretty_N_char.
      repeat case_match; discriminate.
Qed.

Lemma number_key_not_proto (n : safe_integer) :
  property_key n ≠ "__proto__"%string.
Proof.
  unfold property_key, number_property_key. destruct n as [n Hn]. cbn.
  unfold pretty, pretty.pretty_Z. destruct n as [|x|x]; [done| |done].
  unfold pretty, pretty.pretty_positive, pretty, pretty.pretty_N.
  rewrite decide_False by done. intros Heq.
  by apply (pretty_N_go_head (N.pos x) "" "_" "_proto__").
Qed.

Lemma number_key_inj (n n' : safe_integer) :
  property_key n = property_key n' -> n = n'.
Proof.
  unfold property_key, number_property_key. intros Heq.
  apply dsig_eq. by apply (inj pretty).
Qed.

(** X3.  The plain-object operations.  At a key whose name is not
    [__proto__], an item set is read back, [remove] undoes [set] and [set]
    overrides a removal.  A removed key reads as the empty item.  On an
    object that owns no [__proto__], a key that is absent reads as the
    empty item and its removal returns an equal object, and [set] and
    [remove] at a key do not change what is read at a key of another
    name; [set] at the name [__proto__] stores nothing, so that the item
    is not read back.  The name of a number is never [__proto__], and
    distinct numbers have distinct names. *)
Theorem builtIn_round_trips {K I : Type} `{!PropertyKey K} :
  (forall (items : obj I) (k : K) v e,
      property_key k ≠ "__proto__"%string ->
      op_get builtInOperations (op_set builtInOperations items k v) k e = v /\
      op_remove builtInOperations (op_set builtInOperations items k v) k e
      = op_remove builtInOperations items k e /\
      op_set builtInOperations (op_remove builtInOperations items k e) k v
      = op_set builtInOperations items k v) /\
  (forall (items : obj I) (k : K) e,
      op_get builtInOperations (op_remove builtInOperations items k e) k e = e) /\
  (forall (items : obj I) (k : K) e,
      items !! "__proto__"%string = None ->
      items !! property_key k = None ->
      op_get builtInOperations items k e = e /\
      op_remove builtInOperations items k e = items) /\
  (forall (items : obj I) (k k' : K) v e,
      items !! "__proto__"%string = None ->
      property_key k ≠ property_key k' ->
      op_get builtInOperations (op_set builtInOperations items k v) k' e
      = op_get builtInOperations items k' e /\
      op_get builtInOperations (op_remove builtInOperations items k e) k' e
      = op_get builtInOperations items k' e) /\
  (forall (items : obj I) (k : K) v e,
      items !! "__proto__"%string = None ->
      property_key k = "__proto__"%string ->
      op_set builtInOperations items k v = items /\
      op_get builtInOperations (op_set builtInOperations items k v) k e = e) /\
  (forall (items : obj I) (n n' : safe_integer) v e,
      op_get numberMapOperations (op_set numberMapOperations items n v) n e = v /\
      (n ≠ n' -> property_key n ≠ property_key n')).
Proof.
  split; [|split; [|split; [|split; [|split]]]].
  - intros items k v e Hk.
    rewrite ?builtIn_remove_eq, ?builtIn_get_eq, !builtIn_set_eq by done.
    rewrite lookup_insert_eq, delete_insert_ne, delete_insert_eq by done.
    rewrite !delete_delete_eq.
    rewrite (delete_delete _ "__proto__"%string (property_key k)).
    by rewrite delete_delete_eq, insert_delete_eq.
  - intros items k e. by rewrite builtIn_get_eq, builtIn_remove_eq, lookup_delete_eq.
  - intros items k e Hproto Hk. rewrite builtIn_get_eq, builtIn_remove_eq, Hk.
    split; [done|]. rewrite (delete_id _ _ Hproto). by apply delete_id.
  - intros items k k' v e Hproto Hne.
    rewrite !builtIn_get_eq, builtIn_remove_eq.
    rewrite lookup_delete_ne, (delete_id _ _ Hproto) by done. split; [|done].
    destruct (decide (property_key k = "__proto__"%string)) as [Hk|Hk].
    + by rewrite builtIn_set_proto, delete_id.
    + by rewrite builtIn_set_eq, lookup_insert_ne, delete_id.
  - intros items k v e Hproto Hk.
    rewrite builtIn_set_proto, delete_id by done. split; [done|].
    by rewrite builtIn_get_eq, Hk, Hproto.
  - intros items n n' v e. split.
    + unfold numberMapOperations.
      rewrite builtIn_get_eq, builtIn_set_eq by apply number_key_not_proto.
      by rewrite lookup_insert_eq.
    + intros Hne Heq. by apply Hne, number_key_inj.
Qed.

Lemma builtIn_round_trips_witness :
  op_set stringMapOperations ({[ "a"%string := 1%Z ]} : obj Z)
         "__proto__"%string 5%Z
  = {[ "a"%string := 1%Z ]} /\
  op_get stringMapOperations
         (op_set stringMapOperations ({[ "a"%string := 1%Z ]} : obj Z)
                 "__proto__"%string 5%Z)
         "__proto__"%string 0%Z
  = 0%Z.
Proof.
  apply (proj1 (proj2 (proj2 (proj2 (proj2 (builtIn_round_trips (K:=string) (I:=Z))))))
           {[ "a"%string := 1%Z ]} "__proto__"%string 5%Z 0%Z).
  - reflexivity.
  - reflexivity.
Defined.

(** X4.  The Immutable map operations: the same round trips, keys compared as
    they are. *)
Theorem immutableMap_round_trips {K I : Type} `{Countable K} :
  (forall (items : gmap K I) (k : K) v e,
      op_get immutableMapOperations (op_set immutableMapOperations items k v) k e
      = v /\
      op_get immutableMapOperations (op_remove immutableMapOperations items k e) k e
      = e /\
      op_remove immutableMapOperations (op_set immutableMapOperations items k v) k e
      = op_remove immutableMapOperations items k e /\
      op_set immutableMapOperations (op_remove immutableMapOperations items k e) k v
      = op_set immutableMapOperations items k v) /\
  (forall (items : gmap K I) (k : K) e,
      items !! k = None ->
      op_get immutableMapOperations items k e = e /\
      op_remove immutableMapOperations items k e = items) /\
  (forall (items : gmap K I) (k k' : K) v e,
      k ≠ k' ->
      op_get immutableMapOperations (op_set immutableMapOperations items k v) k' e
      = op_get immutableMapOperations items k' e /\
      op_get immutableMapOperations (op_remove immutableMapOperations items k e) k' e
      = op_get immutableMapOperations items k' e).
Proof.
  split; [|split].
  - intros items k v e. cbn.
    by rewrite lookup_insert_eq, lookup_delete_eq, delete_insert_eq,
      insert_delete_eq.
  - intros items k e Hk. cbn. rewrite Hk. split; [done|]. by apply delete_id.
  - intros items k k' v e Hne. cbn.
    by rewrite lookup_insert_ne, lookup_delete_ne.
Qed.

Lemma immutableMap_round_trips_witness :
  op_get immutableMapOperations
         (op_set immutableMapOperations ({[ 1%Z := 10%Z ]} : gmap Z Z) 2%Z 20%Z)
         1%Z 0%Z
  = op_get immutableMapOperations ({[ 1%Z := 10%Z ]} : gmap Z Z) 1%Z 0%Z.
Proof.
  apply (proj2 (proj2 (immutableMap_round_trips (K:=Z) (I:=Z)))
           {[ 1%Z := 10%Z ]} 2%Z 1%Z 20%Z 0%Z).
  discriminate.
Defined.

(** X5.  [set] of the array operations: at an index of the array it overwrites
    the slot and keeps the length and the other slots; at or beyond the end
    it appends the item at the end, so the array grows by one whatever the
    key.  Hence an item set at a key beyond the end is not at that key:
    reading the key gives the empty item.  Up to the end, a defined item is
    read back. *)
Theorem array_set_overwrites_or_appends {I : Type} `{!Undefinable I} :
  (forall (items : array I) key item,
      key < length items ->
      op_set arrayOperations items key item = <[key := Some item]> items /\
      length (op_set arrayOperations items key item) = length items) /\
  (forall (items : array I) key item,
      length items <= key ->
      op_set arrayOperations items key item = items ++ [Some item] /\
      op_set arrayOperations items key item !! length items = Some (Some item)) /\
  (forall (items : array I) key item e,
      length items < key ->
      op_get arrayOperations (op_set arrayOperations items key item) key e = e) /\
  (forall (items : array I) key item e,
      key <= length items ->
      is_undefined item = false ->
      op_get arrayOperations (op_set arrayOperations items key item) key e
      = item).
Proof.
  split; [|split; [|split]].
  - intros items key item Hk. cbn [op_set arrayOperations]. unfold array_slice0.
    rewrite splice_in_range by done. split; [done|]. apply length_insert.
  - intros items key item Hk. cbn [op_set arrayOperations]. unfold array_slice0.
    rewrite splice_beyond by done. split; [done|].
    by rewrite lookup_app_r, Nat.sub_diag.
  - intros items key item e Hk. cbn [op_set op_get arrayOperations].
    unfold array_slice0. rewrite splice_beyond by lia.
    rewrite lookup_ge_None_2; [done|]. rewrite length_app. cbn. lia.
  - intros items key item e Hk Hdef. rewrite array_set_eq by done.
    cbn [op_get arrayOperations]. case_decide.
    + rewrite list_lookup_insert_eq by done. by rewrite Hdef.
    + replace key with (length items) by lia.
      rewrite lookup_app_r, Nat.sub_diag by done. cbn. by rewrite Hdef.
Qed.

Lemma array_set_overwrites_or_appends_witness :
  op_get arrayOperations (op_set arrayOperations [Some 7%Z] 5 9%Z) 5 0%Z = 0%Z /\
  op_set arrayOperations [Some 7%Z] 5 9%Z = [Some 7%Z] ++ [Some 9%Z].
Proof.
  destruct (array_set_overwrites_or_appends (I:=Z)) as (_ & Happend & Hlost & _).
  split.
  - apply (Hlost [Some 7%Z] 5 9%Z 0%Z). cbn. lia.
  - apply (Happend [Some 7%Z] 5 9%Z). cbn. lia.
Defined.

(** X6.  [get] of the array operations returns the element of the slot when the
    slot exists and holds a defined element, and the empty item for a key
    beyond the end, a hole, or an element that is [undefined]; after
    [remove] the key reads as the empty item, also beyond the end. *)
Theorem array_get_defaults_to_empty {I : Type} `{!Undefinable I} :
  (forall (items : array I) key r e,
      items !! key = Some (Some r) ->
      is_undefined r = false ->
      op_get arrayOperations items key e = r) /\
  (forall (items : array I) key e,
      (length items <= key \/ items !! key = Some None \/
       exists r, items !! key = Some (Some r) /\ is_undefined r = true) ->
      op_get arrayOperations items key e = e) /\
  (forall (items : array I) key e,
      op_get arrayOperations (op_remove arrayOperations items key e) key e = e).
Proof.
  split; [|split].
  - intros items key r e Hr Hdef. cbn. by rewrite Hr, Hdef.
  - intros items key e [Hk|[Hk|(r & Hk & Hr)]]; cbn.
    + by rewrite lookup_ge_None_2.
    + by rewrite Hk.
    + by rewrite Hk, Hr.
  - intros items key e. cbn [op_get op_remove arrayOperations].
    unfold array_slice0. rewrite lookup_set_index_eq.
    by destruct (is_undefined e).
Qed.

Lemma array_get_defaults_to_empty_witness :
  op_get arrayOperations [Some 7%Z; None] 1 0%Z = 0%Z /\
  op_get arrayOperations [Some 7%Z; None] 0 0%Z = 7%Z.
Proof.
  destruct (array_get_defaults_to_empty (I:=Z)) as (Hslot & Hempty & _).
  split.
  - apply (Hempty [Some 7%Z; None] 1 0%Z). right. left. reflexivity.
  - apply (Hslot [Some 7%Z; None] 0 7%Z 0%Z); reflexivity.
Defined.

(** X7.  On the heap, [set] and [remove] of the plain-object operations and
    [set] of the array operations return a new cell that holds the result
    of the functional operation, and leave the collection they were given,
    like every other cell, as it was; [get] of both returns the result of
    the functional operation and leaves the heap as it was.  For [set] of
    the plain-object operations the key is not named [__proto__], or the
    object owns no property of that name. *)
Theorem operations_leave_their_input_unchanged {K : Type} `{!PropertyKey K} :
  (forall (h : Mut.heap) l o (key : K) item,
      h !! l = Some (Mut.CObj o) ->
      property_key key ≠ "__proto__"%string \/ o !! "__proto__"%string = None ->
      exists l' h',
        Mut.builtIn_set (Mut.VRef l) (property_key key) item h
        = Some (Mut.VRef l', h') /\
        length h <= l' /\
        h' !! l' = Some (Mut.CObj (op_set builtInOperations o key item)) /\
        forall l0, l0 < length h -> h' !! l0 = h !! l0) /\
  (forall (h : Mut.heap) l o (key : K) e,
      h !! l = Some (Mut.CObj o) ->
      exists l' h',
        Mut.builtIn_remove (Mut.VRef l) (property_key key) h
        = Some (Mut.VRef l', h') /\
        length h <= l' /\
        h' !! l' = Some (Mut.CObj (op_remove builtInOperations o key e)) /\
        forall l0, l0 < length h -> h' !! l0 = h !! l0) /\
  (forall (h : Mut.heap) l slots key item,
      h !! l = Some (Mut.CArr slots) ->
      exists l' h',
        Mut.array_set (Mut.VRef l) key item h = Some (Mut.VRef l', h') /\
        length h <= l' /\
        h' !! l' = Some (Mut.CArr (op_set arrayOperations slots key item)) /\
        forall l0, l0 < length h -> h' !! l0 = h !! l0) /\
  (forall (h : Mut.heap) l o (key : K) e,
      h !! l = Some (Mut.CObj o) ->
      Mut.builtIn_get (Mut.VRef l) (property_key key) e h
      = Some (op_get builtInOperations o key e, h)) /\
  (forall (h : Mut.heap) l slots key e,
      h !! l = Some (Mut.CArr slots) ->
      Mut.array_get (Mut.VRef l) key e h
      = Some (op_get arrayOperations slots key e, h)).
Proof.
  split; [|split; [|split; [|split]]];
    [| | |by apply @builtIn_get_run|by apply array_get_run].
  - intros h l o key item Hl _. eexists _, _.
    split; [by apply builtIn_set_run|]. split; [lia|]. split.
    + rewrite lookup_app_r by lia.
      by replace (S (length h) - length h) with 1 by lia.
    + intros l0 Hl0. by apply lookup_app_l.
  - intros h l o key e Hl. eexists _, _.
    split; [by apply (builtIn_remove_run h l o key e)|]. split; [lia|]. split.
    + by rewrite lookup_app_r, Nat.sub_diag.
    + intros l0 Hl0. by apply lookup_app_l.
  - intros h l slots key item Hl. eexists _, _.
    split; [by apply array_set_run|]. split; [lia|]. split.
    + by rewrite lookup_app_r, Nat.sub_diag.
    + intros l0 Hl0. by apply lookup_app_l.
Qed.

Lemma operations_leave_their_input_unchanged_witness :
  exists l' h',
    Mut.builtIn_set (Mut.VRef 0) "a" (Mut.VNum 1) [Mut.CObj ∅]
    = Some (Mut.VRef l', h') /\
    1 <= l' /\
    h' !! l' = Some (Mut.CObj (op_set stringMapOperations ∅ "a"%string (Mut.VNum 1))) /\
    forall l0, l0 < 1 -> h' !! l0 = [Mut.CObj ∅] !! l0.
Proof.
  assert (Hkey : property_key "a"%string ≠ "__proto__"%string) by discriminate.
  exact (proj1 (operations_leave_their_input_unchanged (K:=string))
           [Mut.CObj ∅] 0 ∅ "a"%string (Mut.VNum 1) eq_refl (or_introl Hkey)).
Defined.

(** ** Errors of [ensureReducer] *)

Lemma in_set_dot c : in_set (Lit "."%char) c = true -> c = "."%char.
Proof.
  destruct c as [b0 b1 b2 b3 b4 b5 b6 b7].
  destruct b0, b1, b2, b3, b4, b5, b6, b7; vm_compute; congruence.
Qed.

(** X8.  A getter whose source has no dot has no property access for the
    patterns to read: without an explicit setter [ensureReducer] throws
    the error "too complex to parse", and so does the construction of a
    collection or of a reference. *)
Theorem getter_without_dot_rejected {V K I A : Type}
        (context ty src : string) (g : obj V -> V)
        (reducer : MinimalReducer I A) (operations : CollectionOperations V K I)
        (itemReducer : MinimalReducer V A) :
  Forall (fun c => c ≠ "."%char) (list_ascii_of_string src) ->
  ensureReducer (F := obj V -> V -> obj V) context src None
  = Throw ("Cannot generate reducer for " ++ context ++ " "
           ++ "- too complex to parse, needs explicit reduce")%string /\
  collection ty reducer operations (mkGetter g src) None
  = Throw ("Cannot generate reducer for " ++ ("collection(" ++ ty ++ ")") ++ " "
           ++ "- too complex to parse, needs explicit reduce")%string /\
  reference ty itemReducer (mkGetter g src) None
  = Throw ("Cannot generate reducer for " ++ ("reference(" ++ ty ++ ")") ++ " "
           ++ "- too complex to parse, needs explicit reduce")%string.
Proof.
  intros Hsrc.
  assert (Hnodot : Forall (fun c => in_set (Lit "."%char) c = false)
                          (list_ascii_of_string src)).
  { eapply Forall_impl; [exact Hsrc|]. intros c Hc.
    destruct (in_set (Lit "."%char) c) eqn:Hin; [|done].
    by apply in_set_dot in Hin. }
  assert (Hfun : exec matchFunction src = None).
  { apply (exec_missing (Lit "."%char)); [|done].
    unfold matchFunction. do 10 (apply Exists_app; right).
    apply Exists_app. left. by constructor. }
  assert (Hlam : exec matchLambda src = None).
  { apply (exec_missing (Lit "."%char)); [|done].
    unfold matchLambda. do 3 (apply Exists_app; right).
    apply Exists_app. left. by constructor. }
  split; [by apply ensureReducer_unmatched|].
  unfold collection, reference. cbn [toString].
  by rewrite !ensureReducer_unmatched.
Qed.

Lemma getter_without_dot_rejected_witness :
  collection (K:=string) "SHELVES" priceReducer optionalOperations
             (mkGetter (call optionalShelves) "s => s['shelves']") None
  = Throw "Cannot generate reducer for collection(SHELVES) - too complex to parse, needs explicit reduce".
Proof.
  apply (getter_without_dot_rejected (V:=option (obj Z)) (K:=string) "" "SHELVES"
           "s => s['shelves']" _ priceReducer optionalOperations
           (mkReducer (fun (i : option (obj Z)) (_ : Action Z) => i) None)).
  repeat constructor; discriminate.
Defined.

Lemma matchLambda_arrow_names cp lp cq lq cf lf :
  forallb is_letter (cp :: lp) = true ->
  forallb is_letter (cq :: lq) = true ->
  forallb is_letter (cf :: lf) = true ->
  matchHere matchLambda
    ((cp :: lp) ++ list_ascii_of_string " => " ++ (cq :: lq)
       ++ list_ascii_of_string "." ++ (cf :: lf))
  = Some [string_of_list_ascii (cp :: lp); string_of_list_ascii (cq :: lq);
          string_of_list_ascii (cf :: lf)].
Proof.
  intros Hp Hq Hf.
  assert (Hcp : is_letter cp = true)
    by (cbn in Hp; by apply andb_true_iff in Hp as [? _]).
  assert (Hcq : is_letter cq = true)
    by (cbn in Hq; by apply andb_true_iff in Hq as [? _]).
  pose proof (letter_not_space _ Hcp) as Hspace.
  pose proof (letter_not_space _ Hcq) as Hspaceq.
  pose proof (letter_not_open_paren _ Hcp) as Hparen.
  unfold matchLambda. cbn [list_ascii_of_string app].
  eapply matchHere_optional_skip;
    [reflexivity|reflexivity|apply negb_true_iff; exact Hparen|].
  eapply (matchHere_star _ _ []
            (cp :: lp ++ " " :: "=" :: ">" :: " " :: cq :: lq ++ "." :: cf :: lf)%char);
    [reflexivity|reflexivity|done|apply negb_true_iff; exact Hspace|].
  eapply (matchHere_plus _ _ cp lp
            (" " :: "=" :: ">" :: " " :: cq :: lq ++ "." :: cf :: lf)%char);
    [reflexivity|reflexivity|done|done|].
  eapply (matchHere_star _ _ [" "%char]
            ("=" :: ">" :: " " :: cq :: lq ++ "." :: cf :: lf)%char);
    [reflexivity|reflexivity|done|done|].
  eapply matchHere_optional_skip; [reflexivity|reflexivity|done|].
  eapply (matchHere_star _ _ []
            ("=" :: ">" :: " " :: cq :: lq ++ "." :: cf :: lf)%char);
    [reflexivity|reflexivity|done|done|].
  eapply (matchHere_lit "=>"%string).
  eapply (matchHere_star _ _ [" "%char] (cq :: lq ++ "." :: cf :: lf)%char);
    [reflexivity|reflexivity|done|apply negb_true_iff; exact Hspaceq|].
  eapply (matchHere_plus _ _ cq lq ("." :: cf :: lf)%char);
    [reflexivity|reflexivity|done|done|].
  eapply (matchHere_lit "."%string).
  rewrite <-(app_nil_r lf) at 1.
  eapply (matchHere_plus _ _ cf lf []); [reflexivity|reflexivity|done|done|].
  done.
Qed.

Lemma exec_arrowAccess p q f :
  letters p = true -> letters q = true -> letters f = true ->
  exec matchFunction (arrowAccess p q f) = None /\
  exec matchLambda (arrowAccess p q f) = Some [p; q; f].
Proof.
  intros (cp & lp & Hp & Hlp)%letters_inv (cq & lq & Hq & Hlq)%letters_inv
         (cf & lf & Hf & Hlf)%letters_inv.
  assert (Hsrc : list_ascii_of_string (arrowAccess p q f)
                 = (cp :: lp) ++ list_ascii_of_string " => " ++ (cq :: lq)
                     ++ list_ascii_of_string "." ++ (cf :: lf)).
  { unfold arrowAccess. rewrite !list_ascii_of_string_app. by rewrite Hp, Hq, Hf. }
  assert (Hletters : forall cs, forallb is_letter cs = true ->
            Forall (fun c => in_set (Lit "("%char) c = false) cs).
  { intros cs Hcs. apply Forall_forall. intros c Hc.
    apply letter_not_open_paren.
    rewrite forallb_forall in Hcs. by apply Hcs, list_elem_of_In. }
  split.
  - apply (exec_missing (Lit "("%char)).
    + unfold matchFunction. apply Exists_app. right.
      apply Exists_app. right. apply Exists_app. left. by constructor.
    + rewrite Hsrc. repeat apply Forall_app_2; try by apply Hletters.
      all: by repeat constructor.
  - apply exec_matchHere. rewrite Hsrc, matchLambda_arrow_names by done.
    by rewrite <-Hp, <-Hq, <-Hf, !string_of_list_ascii_of_string.
Qed.

(** X9.  An arrow getter that reads a property of a name other than its
    parameter, [p => q.f] with [p], [q], [f] made of letters and [p]
    different from [q], is rejected: without an explicit setter
    [ensureReducer] throws the error "inconsistent parameter usage", which
    names [p] and [q]. *)
Theorem getter_of_another_name_rejected {F : Type} `{!FieldSetter F}
        (context p q f : string) :
  letters p = true -> letters q = true -> letters f = true ->
  p ≠ q ->
  ensureReducer (F:=F) context (arrowAccess p q f) None
  = Throw ("Cannot generate reducer for " ++ context ++ " "
           ++ "- inconsistent parameter usage: " ++ p ++ ", " ++ q)%string.
Proof.
  intros Hp Hq Hf Hne.
  destruct (exec_arrowAccess p q f Hp Hq Hf) as [Hfun Hlam].
  rewrite (ensureReducer_inconsistent _ _ [p; q; f]); [done| |done].
  by rewrite Hfun, Hlam.
Qed.

Lemma getter_of_another_name_rejected_witness :
  ensureReducer (F := obj Z -> Z -> obj Z) "reference(PRICE)" "s => t.price" None
  = Throw "Cannot generate reducer for reference(PRICE) - inconsistent parameter usage: s, t".
Proof.
  apply (getter_of_another_name_rejected (F := obj Z -> Z -> obj Z)
           "reference(PRICE)" "s" "t" "price").
  - reflexivity.
  - reflexivity.
  - reflexivity.
  - discriminate.
Defined.

(** ** Collections, references and properties with a synthesised setter *)

Section SynthesizedCombinators.
Context {V : Type}.
Variables (ty src p f : string) (g : obj V -> V).
Hypothesis letters_p : letters p = true.
Hypothesis letters_f : letters f = true.
Hypothesis src_shape : getterOf p f src.

Lemma synthesized_collection {K I A} (reducer : MinimalReducer I A)
      (operations : CollectionOperations V K I) :
  collection ty reducer operations (mkGetter g src) None
  = Ok (mkCollection ty
          (reduce reducer operations (mkGetter g src) (field_setter f))
          (update ty) (add ty) (remove ty)).
Proof.
  unfold collection. cbn [toString].
  by rewrite (ensureReducer_getter _ _ p f).
Qed.

Lemma synthesized_reference {A} (reducer : MinimalReducer V A) :
  reference ty reducer (mkGetter g src) None
  = Ok (mkReference ty
          (reference_reduce reducer (mkGetter g src) (field_setter f))
          (reference_update ty)).
Proof.
  unfold reference. cbn [toString].
  by rewrite (ensureReducer_getter _ _ p f).
Qed.
End SynthesizedCombinators.


Lemma optionalShelves_reads (state : obj (option (obj Z))) c :
  state !! "shelves"%string = Some c -> call optionalShelves state = c.
Proof. intros Hc. cbn. by rewrite Hc. Qed.






(** ** Chains of cases *)

Section ChainProperties.
Context {S P : Type} `{!Undefinable S}.
Implicit Types (r : Reducer S P) (c d : ActionDefinition S P).
Implicit Types (ds : list (ActionDefinition S P)).
Implicit Types (a : Action P) (s empty : S).

Lemma isAction_sym a d : isAction a (def_type d) = String.eqb (def_type d) (type a).
Proof. unfold isAction. apply String.eqb_sym. Qed.

Lemma registered_reduce_handler r ds a s :
  r_reduce (foldl Reducer_action r ds) s a
  = match handler ds (type a) with
    | Some c => def_reduce c s (payload a)
    | None => r_reduce r s a
    end.
Proof.
  unfold handler. induction ds as [|d ds IH] using rev_ind; [done|].
  rewrite foldl_app, rev_unit. cbn [foldl List.find].
  unfold Reducer_action at 1. cbn [r_reduce chain].
  rewrite isAction_sym. by destruct (String.eqb (def_type d) (type a)).
Qed.

Lemma find_snoc {X} (q : X -> bool) (l : list X) (x : X) :
  List.find q (l ++ [x])
  = match List.find q l with
    | Some y => Some y
    | None => if q x then Some x else None
    end.
Proof. induction l as [|y l IH]; cbn; [done|]. by destruct (q y). Qed.

(** What a chain computes: the case registered last for the action's tag
    handles the action, and the pass-through handles it when there is
    none. *)
Lemma build_reduce_handler empty d ds a s :
  r_reduce (build empty d ds) s a
  = match handler (d :: ds) (type a) with
    | Some c => def_reduce c s (payload a)
    | None => if is_undefined s then empty else s
    end.
Proof.
  unfold build. rewrite registered_reduce_handler.
  unfold handler. cbn [rev]. rewrite find_snoc.
  destruct (List.find _ (rev ds)); [done|].
  unfold Starter_action. cbn [r_reduce chain starter_empty reducer].
  rewrite isAction_sym. by destruct (String.eqb (def_type d) (type a)).
Qed.

Lemma find_tag_unique (l : list (ActionDefinition S P)) c ty :
  NoDup (def_type <$> l) ->
  c ∈ l ->
  def_type c = ty ->
  List.find (fun d => String.eqb (def_type d) ty) l = Some c.
Proof.
  intros Hnd Hc Hty. induction l as [|d l IH]; [by apply elem_of_nil in Hc|].
  cbn in Hnd. apply NoDup_cons in Hnd as [Hd Hnd]. cbn [List.find].
  apply elem_of_cons in Hc as [<-|Hc].
  - apply String.eqb_eq in Hty. by rewrite Hty.
  - destruct (String.eqb (def_type d) ty) eqn:Heq; [|by apply IH].
    apply String.eqb_eq in Heq. exfalso. apply Hd.
    apply list_elem_of_fmap. exists c. split; [congruence|done].
Qed.

Lemma handler_permutation ds ds' ty :
  NoDup (def_type <$> ds) ->
  ds ≡ₚ ds' ->
  handler ds ty = handler ds' ty.
Proof.
  intros Hnd Hperm. unfold handler.
  assert (Hnd' : NoDup (def_type <$> rev ds')).
  { assert (Hrev : rev ds' ≡ₚ ds)
      by (rewrite <-(Permutation_rev ds'); by symmetry).
    by rewrite Hrev. }
  destruct (List.find (fun d => String.eqb (def_type d) ty) (rev ds))
    as [c|] eqn:Hfind.
  - apply find_some in Hfind as [Hin Hty]. apply String.eqb_eq in Hty.
    symmetry. apply find_tag_unique; [done| |done].
    apply list_elem_of_In, (proj1 (in_rev ds' c)), list_elem_of_In.
    rewrite <-Hperm. by apply list_elem_of_In, (proj2 (in_rev ds c)).
  - destruct (List.find (fun d => String.eqb (def_type d) ty) (rev ds'))
      as [c|] eqn:Hfind'; [|done].
    apply find_some in Hfind' as [Hin Hty].
    eapply find_none in Hfind; [by rewrite Hty in Hfind|].
    apply (proj1 (in_rev ds c)), list_elem_of_In. rewrite Hperm.
    by apply list_elem_of_In, (proj2 (in_rev ds' c)).
Qed.
End ChainProperties.

(** X13.  Cases with pairwise distinct tags can be registered in any order: the
    two chains reduce every state and action alike. *)
Theorem registration_order_irrelevant {S P : Type} `{!Undefinable S}
        (empty : S) (d d' : ActionDefinition S P) (ds ds' : list (ActionDefinition S P)) :
  NoDup (def_type <$> (d :: ds)) ->
  d :: ds ≡ₚ d' :: ds' ->
  forall s a, r_reduce (build empty d ds) s a = r_reduce (build empty d' ds') s a.
Proof.
  intros Hnd Hperm s a. rewrite !build_reduce_handler.
  by rewrite (handler_permutation (d :: ds) (d' :: ds')).
Qed.

Lemma registration_order_irrelevant_witness :
  r_reduce (build (Some 0%Z) (action "SET" (fun _ v => Some v))
                  [action "INCR" (fun s _ => Some (default 0%Z s + 1)%Z)])
           (Some 5%Z) (mkAction "INCR" 0%Z)
  = r_reduce (build (Some 0%Z) (action "INCR" (fun s _ => Some (default 0%Z s + 1)%Z))
                    [action "SET" (fun (_ : option Z) (v : Z) => Some v)])
             (Some 5%Z) (mkAction "INCR" 0%Z).
Proof.
  apply (registration_order_irrelevant (Some 0%Z)).
  - by apply (bool_decide_unpack _).
  - apply perm_swap.
Defined.

(** X14.  The member [empty] of a chain is the seed it was started from, however
    many cases were registered; reducing the state [undefined] with an
    action that no case handles gives that member. *)
Theorem chain_keeps_its_seed {S P : Type} `{!Undefinable S}
        (empty : S) (d : ActionDefinition S P) (ds : list (ActionDefinition S P)) :
  r_empty (build empty d ds) = empty /\
  forall s a,
    handler (d :: ds) (type a) = None ->
    is_undefined s = true ->
    r_reduce (build empty d ds) s a = r_empty (build empty d ds).
Proof.
  split; [apply build_empty|].
  intros s a Hnone Hs. by rewrite build_reduce_handler, Hnone, Hs, build_empty.
Qed.

Lemma chain_keeps_its_seed_witness :
  r_reduce counter None (mkAction "@@redux/INIT" 0%Z) = r_empty counter.
Proof.
  apply (proj2 (chain_keeps_its_seed (Some 0%Z)
                  (action "INCR" (fun s _ => Some (default 0%Z s + 1)%Z))
                  counterCases)).
  - reflexivity.
  - reflexivity.
Defined.

(** ** Cursors at any depth *)

Section NavigationProperties.
Context {Sigma RS RA : Type}.
Local Abbreviation Cursor := (Cursor (Sigma:=Sigma) (RS:=RS) (RA:=RA)).

Lemma root_rederive {S A} (c : Cursor S A) rs : root (rederive c rs) = root c.
Proof. induction c; cbn; done. Qed.

Lemma address_rederive {S A} (c : Cursor S A) rs a :
  address (rederive c rs) a = address c a.
Proof. revert a. induction c as [|? ? ? ? ? ? ? ? IH ?]; intros a; cbn; [done|]. apply IH. Qed.

Lemma view_rederive {S A} (c : Cursor S A) rs rs' :
  view (rederive c rs) rs' = view c rs'.
Proof. induction c; cbn; [done|]. by f_equal. Qed.

Lemma rederive_rederive {S A} (c : Cursor S A) rs rs' :
  rederive (rederive c rs) rs' = rederive c rs'.
Proof. induction c; cbn; [done|]. by f_equal. Qed.

(** X15.  Calling a cursor, however deep the navigation that derived it, makes
    one call of [dispatch] on the store it descends from, with the action
    wrapped by every [update] on the way, and one call of [getState]; the
    cursor returned is the same navigation over the state read, so its
    state is that state seen through every [fetch] on the way.  When the
    store throws, the call throws. *)
Theorem cursor_dispatch_reaches_store {S A} (c : Cursor S A) (a : A)
        (sigma : Sigma) :
  match store_dispatch (root c) (address c a) sigma with
  | None => dispatch c a sigma = None
  | Some (_, sigma1) =>
      match store_getState (root c) sigma1 with
      | None => dispatch c a sigma = None
      | Some (rs, sigma2) =>
          exists c',
            dispatch c a sigma = Some (c', sigma2) /\
            state c' = view c rs /\
            root c' = root c /\
            (forall b, address c' b = address c b) /\
            (forall rs', view c' rs' = view c rs')
      end
  end.
Proof.
  rewrite dispatch_reaches_store. unfold mbind, Comp_bind, mret, Comp_ret.
  destruct (store_dispatch (root c) (address c a) sigma) as [[x sigma1]|];
    [|done].
  destruct (store_getState (root c) sigma1) as [[rs sigma2]|]; [|done].
  exists (rederive c rs). split; [done|]. split; [apply state_rederive|].
  split; [apply root_rederive|]. split.
  - intros b. apply address_rederive.
  - intros rs'. apply view_rederive.
Qed.

(** X16.  A call of a cursor does not depend on the state the cursor captured:
    a stale cursor dispatches on the store as it is now, exactly as a
    fresh cursor of the same navigation does. *)
Theorem dispatch_ignores_captured_state {S A} (c : Cursor S A) (rs : RS)
        (a : A) (sigma : Sigma) :
  dispatch (rederive c rs) a sigma = dispatch c a sigma.
Proof.
  rewrite !dispatch_reaches_store.
  rewrite root_rederive, address_rederive.
  unfold mbind, Comp_bind, mret, Comp_ret.
  destruct (store_dispatch (root c) (address c a) sigma) as [[x sigma1]|];
    [|done].
  destruct (store_getState (root c) sigma1) as [[rs' sigma2]|]; [|done].
  by rewrite rederive_rederive.
Qed.
End NavigationProperties.

(** ** Cursors into a collection and into a reference *)

Section CollectionCursorProperties.
Context {S C K I A : Type} `{!FieldSetter (S -> C -> S)} `{!Undefinable S}.
Context {Sigma : Type}.
Variable ty : string.
Variable reducer : MinimalReducer I A.
Variable operations : CollectionOperations C K I.
Variable get : Getter S C.
Variable set : S -> C -> S.
Variable def : CollectionDefinition S K A.
Hypothesis def_built : collection ty reducer operations get (Some set) = Ok def.

(** The owner's reducer, in which the collection is the case that handles
    its tag, and a store that, in the state [sigma], installs the owner's
    reduction of [s]. *)
Variable empty : S.
Variable d : ActionDefinition S (Update K A).
Variable ds : list (ActionDefinition S (Update K A)).
Hypothesis def_registered : handler (d :: ds) ty = Some (collectionCase def).
Hypothesis get_set : forall s c, call get (set s c) = c.

Variable store : Store Sigma S (Action (Update K A)).

Local Abbreviation owner := (build empty d ds).
Local Abbreviation itemAt s k :=
  (op_get operations (call get s) k (r_empty reducer)).

Lemma def_constructors :
  (forall k a, c_update def k a = update ty k a) /\
  (forall k, c_add def k = add ty k) /\
  (forall k, c_remove def k = remove ty k).
Proof.
  pose proof def_built as Hdef. rewrite collection_explicit in Hdef.
  by injection Hdef as <-.
Qed.

Lemma owner_reduces_collection s key upd rm :
  r_reduce owner s (mkAction ty (mkUpdate key upd rm))
  = reduce reducer operations get set s (mkUpdate key upd rm).
Proof.
  rewrite build_reduce_handler. cbn [type]. rewrite def_registered.
  cbn [def_reduce collectionCase payload].
  rewrite collection_explicit in def_built. by injection def_built as <-.
Qed.

(** X17.  Dispatching an inner action through the cursor of the item at [k]
    reduces the item.  Take a snapshot of a store that holds the owner
    state [s], derive the cursor of the item at [k] from it and call it
    with the inner action [a]: when the store's [dispatch] installs the
    owner's reduction of [s], the cursor returned holds the inner
    reducer's result on the item that [k] had in [s] (the empty item when
    absent), provided the owner's [get] reads back what [set] commits and
    the operations read back that result at [k]. *)
Theorem collection_cursor_updates_item s sigma sigma1 sigma2 x k a :
  op_get operations
         (op_set operations (call get s) k (r_reduce reducer (itemAt s k) a))
         k (r_empty reducer)
  = r_reduce reducer (itemAt s k) a ->
  store_getState store sigma = Some (s, sigma) ->
  store_dispatch store (c_update def k a) sigma = Some (x, sigma1) ->
  store_getState store sigma1
  = Some (r_reduce owner s (c_update def k a), sigma2) ->
  exists inner',
    (outer ← snapshot store;
     dispatch (cc_cursor (collectionCursors ty reducer operations get outer k)) a)
      sigma
    = Some (inner', sigma2) /\
    state inner' = r_reduce reducer (itemAt s k) a.
Proof.
  intros Hop Hs Hd Hg.
  destruct def_constructors as (Hupdate & _ & _). rewrite Hupdate in Hd, Hg.
  unfold snapshot, mbind, Comp_bind, mret, Comp_ret. rewrite Hs.
  cbn [cc_cursor collectionCursors]. unfold plainCursors, items.
  cbn [dispatch]. unfold snapshot, mbind, Comp_bind, mret, Comp_ret.
  rewrite Hd, Hg. eexists. split; [done|]. cbn [state].
  change (update ty k a) with (mkAction ty (mkUpdate k (Some a) None)).
  rewrite owner_reduces_collection.
  unfold reduce. cbn [u_key u_update u_remove truthy].
  unfold items. cbn [state]. by rewrite get_set, Hop.
Qed.

(** X18.  The method [remove] of an item's cursor dispatches [remove(k)] on the
    outer cursor.  Take a snapshot of a store that holds the owner state
    [s], derive the cursor of the item at [k] from it and call its
    [remove]: when the store's [dispatch] installs the owner's reduction
    of [s], the cursor of the item at [k] derived from the outer cursor
    returned holds the empty item, provided the owner's [get] reads back
    what [set] commits and the operations read the empty item at a removed
    key. *)
Theorem collection_cursor_remove_empties_item s sigma sigma1 sigma2 x k :
  op_get operations
         (op_remove operations (call get s) k (r_empty reducer))
         k (r_empty reducer)
  = r_empty reducer ->
  store_getState store sigma = Some (s, sigma) ->
  store_dispatch store (c_remove def k) sigma = Some (x, sigma1) ->
  store_getState store sigma1
  = Some (r_reduce owner s (c_remove def k), sigma2) ->
  exists outer',
    (outer ← snapshot store;
     cc_remove (collectionCursors ty reducer operations get outer k)) sigma
    = Some (outer', sigma2) /\
    state (cc_cursor (collectionCursors ty reducer operations get outer' k))
    = r_empty reducer.
Proof.
  intros Hop Hs Hd Hg.
  destruct def_constructors as (_ & _ & Hremove). rewrite Hremove in Hd, Hg.
  unfold snapshot, mbind, Comp_bind, mret, Comp_ret. rewrite Hs.
  cbn [cc_remove collectionCursors].
  cbn [dispatch]. unfold snapshot, mbind, Comp_bind, mret, Comp_ret.
  rewrite Hd, Hg. eexists. split; [done|].
  cbn [cc_cursor collectionCursors]. unfold plainCursors, items. cbn [state].
  change (remove (A:=A) ty k) with (mkAction ty (mkUpdate (U:=A) k None (Some true))).
  rewrite owner_reduces_collection.
  unfold reduce. cbn [u_key u_update u_remove truthy].
  by rewrite get_set, Hop.
Qed.
End CollectionCursorProperties.

Lemma collection_cursor_updates_item_witness :
  exists inner',
    (outer ← snapshot (Reducer_store shopOwner);
     dispatch (cc_cursor (collectionCursors "SHELVES" priceReducer
                            stringMapOperations shelvesGetter outer "a"%string))
              (mkAction "SET_PRICE" 3%Z))
      (mkShop {[ "a"%string := 1%Z ]})
    = Some (inner',
            r_reduce shopOwner (mkShop {[ "a"%string := 1%Z ]})
                     (c_update shelvesDef "a"%string (mkAction "SET_PRICE" 3%Z))) /\
    state inner'
    = r_reduce priceReducer
        (op_get stringMapOperations
           (call shelvesGetter (mkShop {[ "a"%string := 1%Z ]}))
           "a"%string (r_empty priceReducer))
        (mkAction "SET_PRICE" 3%Z).
Proof.
  apply (collection_cursor_updates_item "SHELVES" priceReducer
           stringMapOperations shelvesGetter setShelves shelvesDef eq_refl
           (mkShop ∅) (collectionCase shelvesDef) [] eq_refl
           shelves_get_set (Reducer_store shopOwner)
           (mkShop {[ "a"%string := 1%Z ]})
           (mkShop {[ "a"%string := 1%Z ]})
           (r_reduce shopOwner (mkShop {[ "a"%string := 1%Z ]})
              (c_update shelvesDef "a"%string (mkAction "SET_PRICE" 3%Z)))
           (r_reduce shopOwner (mkShop {[ "a"%string := 1%Z ]})
              (c_update shelvesDef "a"%string (mkAction "SET_PRICE" 3%Z)))
           (c_update shelvesDef "a"%string (mkAction "SET_PRICE" 3%Z))
           "a"%string (mkAction "SET_PRICE" 3%Z)).
  - by apply builtIn_get_set.
  - reflexivity.
  - reflexivity.
  - reflexivity.
Defined.

Lemma collection_cursor_remove_empties_item_witness :
  exists outer',
    (outer ← snapshot (Reducer_store shopOwner);
     cc_remove (collectionCursors "SHELVES" priceReducer stringMapOperations
                  shelvesGetter outer "a"%string))
      (mkShop {[ "a"%string := 1%Z ]})
    = Some (outer',
            r_reduce shopOwner (mkShop {[ "a"%string := 1%Z ]})
                     (c_remove shelvesDef "a"%string)) /\
    state (cc_cursor (collectionCursors "SHELVES" priceReducer
                        stringMapOperations shelvesGetter outer' "a"%string))
    = r_empty priceReducer.
Proof.
  apply (collection_cursor_remove_empties_item "SHELVES" priceReducer
           stringMapOperations shelvesGetter setShelves shelvesDef eq_refl
           (mkShop ∅) (collectionCase shelvesDef) [] eq_refl
           shelves_get_set (Reducer_store shopOwner)
           (mkShop {[ "a"%string := 1%Z ]})
           (mkShop {[ "a"%string := 1%Z ]})
           (r_reduce shopOwner (mkShop {[ "a"%string := 1%Z ]})
              (c_remove shelvesDef "a"%string))
           (r_reduce shopOwner (mkShop {[ "a"%string := 1%Z ]})
              (c_remove shelvesDef "a"%string))
           (c_remove shelvesDef "a"%string) "a"%string).
  - unfold stringMapOperations. rewrite builtIn_remove_eq, builtIn_get_eq.
    by rewrite lookup_delete_eq.
  - reflexivity.
  - reflexivity.
  - reflexivity.
Defined.

Section ReferenceCursorProperties.
Context {S I A : Type} `{!FieldSetter (S -> I -> S)} `{!Undefinable S}.
Context {Sigma : Type}.
Variable ty : string.
Variable reducer : MinimalReducer I A.
Variable get : Getter S I.
Variable set : S -> I -> S.
Variable def : ReferenceDefinition S A.
Hypothesis def_built : reference ty reducer get (Some set) = Ok def.
Variable empty : S.
Variable d : ActionDefinition S A.
Variable ds : list (ActionDefinition S A).
Hypothesis def_registered : handler (d :: ds) ty = Some (referenceCase def).
Hypothesis get_set : forall s i, call get (set s i) = i.
Variable store : Store Sigma S (Action A).

Lemma reference_def_members :
  (forall a, ref_update def a = mkAction ty a) /\
  (forall s a, ref_reduce def s a = set s (r_reduce reducer (call get s) a)).
Proof.
  pose proof def_built as Hdef. unfold reference in Hdef. cbn in Hdef.
  by injection Hdef as <-.
Qed.

(** X19.  Dispatching an inner action through the cursor of a reference reduces
    the referenced item: when the store installs the owner's reduction of
    its state [s], the cursor returned holds the inner reducer's result on
    the item fetched from [s], provided the owner's [get] reads back what
    [set] commits. *)
Theorem reference_cursor_updates_item s0 s sigma sigma1 sigma2 x a :
  store_dispatch store (ref_update def a) sigma = Some (x, sigma1) ->
  store_getState store sigma1
  = Some (r_reduce (build empty d ds) s (ref_update def a), sigma2) ->
  exists inner',
    dispatch (referenceCursors ty get (SnapshotCursor store s0)) a sigma
    = Some (inner', sigma2) /\
    state inner' = r_reduce reducer (call get s) a.
Proof.
  intros Hd Hg. destruct reference_def_members as [Hupdate Hreduce].
  rewrite Hupdate in Hd, Hg.
  unfold referenceCursors, item, items. cbn [dispatch].
  unfold snapshot, mbind, Comp_bind, mret, Comp_ret.
  unfold reference_update at 1. rewrite Hd, Hg.
  eexists. split; [done|]. unfold items. cbn [state].
  rewrite build_reduce_handler. cbn [type]. rewrite def_registered.
  cbn [def_reduce referenceCase payload].
  by rewrite Hreduce, get_set.
Qed.
End ReferenceCursorProperties.

Lemma reference_cursor_updates_item_witness :
  exists inner',
    dispatch (referenceCursors "PRICE" priceGetter
                (SnapshotCursor (Reducer_store priceOwner) (mkBook 1%Z)))
             (mkAction "SET_PRICE" 3%Z) (mkBook 1%Z)
    = Some (inner',
            r_reduce priceOwner (mkBook 1%Z)
                     (ref_update priceDef (mkAction "SET_PRICE" 3%Z))) /\
    state inner'
    = r_reduce priceReducer (call priceGetter (mkBook 1%Z))
               (mkAction "SET_PRICE" 3%Z).
Proof.
  apply (reference_cursor_updates_item "PRICE" priceReducer priceGetter setPrice
           priceDef eq_refl (mkBook 0%Z) (referenceCase priceDef) []
           eq_refl (fun s i => eq_refl)
           (Reducer_store priceOwner) (mkBook 1%Z)
           (mkBook 1%Z) (mkBook 1%Z)
           (r_reduce priceOwner (mkBook 1%Z)
              (ref_update priceDef (mkAction "SET_PRICE" 3%Z)))
           (r_reduce priceOwner (mkBook 1%Z)
              (ref_update priceDef (mkAction "SET_PRICE" 3%Z)))
           (ref_update priceDef (mkAction "SET_PRICE" 3%Z))
           (mkAction "SET_PRICE" 3%Z)).
  - reflexivity.
  - reflexivity.
Defined.
